(** * librefsm: a hierarchical finite state machine runtime

    Shallow embedding of the Go package [librefsm] (types.go, state.go,
    transition.go, event.go, context.go, the definition builder, the timer
    subsystem and machine.go) together with the properties of the engine
    that its specification states.

    Modelling conventions.
    - [StateID] and [EventID] are Go strings; the state table
      [map[StateID]*State] is a [gmap]; the transition slice is a [list].
    - User callbacks are functions on the part of the machine that user code
      can reach through a [Context]: the timer table, the runtime timers,
      the event queue and the application data (record [Env]).  The field
      [currentState] is unexported and every public operation that writes it
      takes the machine lock the dispatcher already holds, so callbacks
      cannot change it.
    - A timer entry stores its action as a reference to the state whose
      [TimeoutAction] it is (the only non-nil actions the engine ever
      stores), which keeps [Env] first order.
    - Loops over the parent chain and the recursive entry cascade need not
      terminate in Go; they carry fuel here and return [None] when it runs
      out.
    - The machine carries a [trace] recording the engine's steps in the
      order they happen; the ordering properties are stated on it. *)

From stdpp Require Import gmap strings list fin_maps.
From Stdlib Require Import ZArith.

Open Scope string_scope.
Open Scope list_scope.

(** ** types.go *)

Definition StateID := string.
Definition EventID := string.

Inductive StateType := StateNormal | StateCondition | StateJunction | StateFinal.

Inductive TimerScope := TimerScopeGlobal | TimerScopeState.

#[global] Instance StateType_eq_dec : EqDecision StateType.
Proof. solve_decision. Defined.

#[global] Instance TimerScope_eq_dec : EqDecision TimerScope.
Proof. solve_decision. Defined.

(** ** transition.go: the wildcard source *)

Definition WildcardState : StateID := "*".

(** Errors.  [UserError] is an error value returned by a user callback; the
    other constructors are the [fmt.Errorf] sites of the package. *)
Inductive error :=
| UserError (msg : string)
| ErrNoInitial
| ErrInitialUndefined (initial : StateID)
| ErrUndefinedParent (id parent : StateID)
| ErrUndefinedDefaultChild (id child : StateID)
| ErrTransitionFromUndefined (from : StateID)
| ErrTransitionToUndefined (to : StateID)
| ErrNoCondition (id : StateID)
| ErrParentCycle (at_state : StateID)
| ErrInvalidDefinition (cause : error)
| ErrTimeoutTargetUndefined (id target : StateID)
| ErrStateNotFound (id : StateID)
| ErrEntryActionFailed (id : StateID) (cause : error)
| ErrExitActionFailed (id : StateID) (cause : error)
| ErrExitFailed (cause : error)
| ErrTransitionActionFailed (cause : error)
| ErrEnterFailed (cause : error)
| ErrUnknownState (id : StateID)
| ErrSetStateExit (id : StateID) (cause : error)
| ErrSetStateEnter (id : StateID) (cause : error)
| ErrInitialEntryFailed (cause : error).

Section Model.

Context {Data Payload : Type}.

(** ** event.go *)

Record Event := mkEvent {
  ID : EventID;
  Payload_of : option Payload
}.

(** ** Runtime data reachable from callbacks *)

(** The variables captured by the closure handed to [time.AfterFunc]. *)
Record TimerClosure := mkClosure {
  cl_name : string;
  cl_event : Event;
  cl_scope : TimerScope;
  cl_owner : StateID
}.

(** A [*time.Timer]: its function, whether it is still scheduled, and how
    many times [Stop] has been called on it. *)
Record goTimer := mkGoTimer {
  fn : TimerClosure;
  armed : bool;
  stops : nat
}.

(** unnamed/part_004: [timerEntry].  [timer] is the index of the runtime
    timer in [clock]; [action] names the state whose [TimeoutAction] is the
    stored callback. *)
Record timerEntry := mkTimerEntry {
  timer : nat;
  event : Event;
  scope : TimerScope;
  ownerState : StateID;
  duration : Z;
  action : option StateID
}.

Record Env := mkEnv {
  timers : gmap string timerEntry;
  clock : list goTimer;
  events : list Event;
  capacity : nat;
  data : Data
}.

(** ** context.go *)

Record Context := mkContext {
  FSM_currentState : StateID;
  ctx_Event : option Event;
  FromState : StateID;
  ToState : StateID
}.

Definition Callback := Context -> Env -> Env * option error.
Definition GuardFn := Context -> Env -> Env * bool.
Definition ConditionFn := Context -> Env -> Env * StateID.

(** ** state.go *)

Record State := mkState {
  State_ID : StateID;
  Parent : StateID;
  Type_ : StateType;
  DefaultChild : StateID;
  OnEnter : option Callback;
  OnExit : option Callback;
  Condition : option ConditionFn;
  Timeout : Z;
  TimeoutEvent : EventID;
  TimeoutAction : option Callback;
  TimeoutTarget : StateID;
  DeclaredTimers : list string
}.

(** ** transition.go *)

Record Transition := mkTransition {
  From : StateID;
  Event_ : EventID;
  To : StateID;
  Guard : option GuardFn;
  Action : option Callback
}.

(** ** unnamed/part_001: the definition builder *)

Record Definition_ := mkDefinition {
  states : gmap StateID State;
  transitions : list Transition;
  initial : StateID
}.

Definition NewDefinition : Definition_ :=
  {| states := ∅; transitions := []; initial := "" |}.

Definition add_state (d : Definition_) (id : StateID) (s : State) : Definition_ :=
  {| states := <[id := s]> (states d);
     transitions := transitions d;
     initial := initial d |}.

Definition add_transition (d : Definition_) (t : Transition) : Definition_ :=
  {| states := states d;
     transitions := transitions d ++ [t];
     initial := initial d |}.

Definition Initial (d : Definition_) (id : StateID) : Definition_ :=
  {| states := states d; transitions := transitions d; initial := id |}.

(** A [for ... { if err != nil { return err } }] loop: the first error. *)
Fixpoint first_error {A} (f : A -> option error) (l : list A) : option error :=
  match l with
  | [] => None
  | x :: l' => match f x with
               | Some e => Some e
               | None => first_error f l'
               end
  end.

Definition defined (d : Definition_) (id : StateID) : bool :=
  bool_decide (is_Some (states d !! id)).

Definition check_references (d : Definition_) (p : StateID * State) : option error :=
  let '(id, state) := p in
  if bool_decide (Parent state ≠ "") && negb (defined d (Parent state))
  then Some (ErrUndefinedParent id (Parent state))
  else if bool_decide (DefaultChild state ≠ "") && negb (defined d (DefaultChild state))
  then Some (ErrUndefinedDefaultChild id (DefaultChild state))
  else None.

Definition check_transition (d : Definition_) (t : Transition) : option error :=
  if bool_decide (From t ≠ WildcardState) && negb (defined d (From t))
  then Some (ErrTransitionFromUndefined (From t))
  else if negb (defined d (To t))
  then Some (ErrTransitionToUndefined (To t))
  else None.

Definition is_pseudo (ty : StateType) : bool :=
  bool_decide (ty = StateCondition) || bool_decide (ty = StateJunction).

Definition check_condition (p : StateID * State) : option error :=
  let '(id, state) := p in
  if is_pseudo (Type_ state) && negb (bool_decide (is_Some (Condition state)))
  then Some (ErrNoCondition id)
  else None.

(** [checkParentCycle]: the loop body with its [visited] set.  The outer
    [option] is [None] only when the fuel runs out. *)
Fixpoint checkParentCycle_loop (d : Definition_) (fuel : nat)
    (visited : gset StateID) (current : StateID) : option (option error) :=
  match fuel with
  | O => None
  | S fuel' =>
      if bool_decide (current = "") then Some None
      else if bool_decide (current ∈ visited) then Some (Some (ErrParentCycle current))
      else match states d !! current with
           | None => Some None
           | Some state =>
               checkParentCycle_loop d fuel' ({[current]} ∪ visited) (Parent state)
           end
  end.

(** Every iteration that continues adds a declared state to [visited], so
    one more iteration than there are states always suffices (lemma
    [checkParentCycle_loop_total]). *)
Definition checkParentCycle (d : Definition_) (id : StateID) : option error :=
  default None (checkParentCycle_loop d (S (size (states d))) ∅ id).

Definition Validate (d : Definition_) : option error :=
  if bool_decide (initial d = "") then Some ErrNoInitial
  else if negb (defined d (initial d)) then Some (ErrInitialUndefined (initial d))
  else match first_error (check_references d) (map_to_list (states d)) with
  | Some e => Some e
  | None =>
  match first_error (check_transition d) (transitions d) with
  | Some e => Some e
  | None =>
  match first_error check_condition (map_to_list (states d)) with
  | Some e => Some e
  | None =>
      first_error (fun p => checkParentCycle d (fst p)) (map_to_list (states d))
  end end end.

(** ** unnamed/part_004: the timer subsystem *)

(** [Timer.Stop]: the timer no longer fires; the call is counted. *)
Definition timer_Stop (h : nat) (c : list goTimer) : list goTimer :=
  alter (fun t => {| fn := fn t; armed := false; stops := S (stops t) |}) h c.

(** [time.AfterFunc]: a new scheduled timer; its handle is its index. *)
Definition time_AfterFunc (f : TimerClosure) (c : list goTimer) : list goTimer :=
  c ++ [{| fn := f; armed := true; stops := 0 |}].

Definition set_timers (e : Env) (t : gmap string timerEntry) (c : list goTimer) : Env :=
  {| timers := t; clock := c; events := events e; capacity := capacity e; data := data e |}.

(** The [if entry, ok := m.timers[name]; ok { entry.timer.Stop(); delete }]
    block shared by the timer operations. *)
Definition cancel_entry (name : string) (e : Env) : Env :=
  match timers e !! name with
  | Some existing =>
      set_timers e (delete name (timers e)) (timer_Stop (timer existing) (clock e))
  | None => e
  end.

Definition startTimerInternalWithAction (name : string) (dur : Z) (ev : Event)
    (sc : TimerScope) (owner : StateID) (act : option StateID) (e : Env) : Env :=
  let e1 := cancel_entry name e in
  let t := length (clock e1) in
  let entry := {| timer := t; event := ev; scope := sc; ownerState := owner;
                  duration := dur; action := act |} in
  set_timers e1 (<[name := entry]> (timers e1))
    (time_AfterFunc {| cl_name := name; cl_event := ev; cl_scope := sc; cl_owner := owner |}
       (clock e1)).

Definition startTimerInternal (name : string) (dur : Z) (ev : Event)
    (sc : TimerScope) (owner : StateID) (e : Env) : Env :=
  startTimerInternalWithAction name dur ev sc owner None e.

Definition StartTimer (name : string) (dur : Z) (ev : Event) (e : Env) : Env :=
  startTimerInternal name dur ev TimerScopeGlobal "" e.

Definition StopTimer (name : string) (e : Env) : Env := cancel_entry name e.

Definition StopAllTimers (e : Env) : Env :=
  set_timers e ∅
    (foldr (fun p c => timer_Stop (timer (snd p)) c) (clock e) (map_to_list (timers e))).

Definition TimerActive (name : string) (e : Env) : bool :=
  bool_decide (is_Some (timers e !! name)).

Definition resetTimer (name : string) (dur : Z) (e : Env) : Env :=
  match timers e !! name with
  | None => e
  | Some entry =>
      startTimerInternal name dur (event entry) (scope entry) (ownerState entry)
        (cancel_entry name e)
  end.

Definition owned_by (stateID : StateID) (entry : timerEntry) : bool :=
  bool_decide (scope entry = TimerScopeState) && bool_decide (ownerState entry = stateID).

Definition cleanupTimersForState (stateID : StateID) (e : Env) : Env :=
  foldr (fun p e' => if owned_by stateID (snd p) then cancel_entry (fst p) e' else e')
        e (map_to_list (timers e)).

(** [Send]: non-blocking enqueue; a full queue drops the event. *)
Definition Send (ev : Event) (e : Env) : Env :=
  if bool_decide (length (events e) < capacity e)
  then {| timers := timers e; clock := clock e; events := events e ++ [ev];
          capacity := capacity e; data := data e |}
  else e.

(** context.go: the timer operations of a [Context]. *)
Definition Context_StartTimer (c : Context) (name : string) (dur : Z) (ev : Event) : Env -> Env :=
  startTimerInternal name dur ev TimerScopeState (FSM_currentState c).

Definition Context_StartTimerGlobal (name : string) (dur : Z) (ev : Event) : Env -> Env :=
  startTimerInternal name dur ev TimerScopeGlobal "".

(** ** machine.go *)

(** Steps of the engine, recorded in execution order. *)
Inductive Step :=
| StepSetCurrent (s : StateID)
| StepStartTimeout (s : StateID) (name : string)
| StepOnEnter (s from : StateID)
| StepResolve (s next : StateID)
| StepCleanupTimers (s : StateID)
| StepStopTimer (name : string)
| StepOnExit (s : StateID)
| StepGuard (from to : StateID) (passed : bool)
| StepAction (from to : StateID)
| StepNotify (from to : StateID)
| StepTimerRemoved (name : string)
| StepTimerAction (name : string) (failed : bool)
| StepTimerRestart (name : string)
| StepSend (ev : EventID).

Record Machine := mkMachine {
  definition : Definition_;
  currentState : StateID;
  env : Env;
  stateChangeCallback : option (StateID -> StateID -> Env -> Env);
  children : gmap StateID (list StateID);
  depth : gmap StateID nat;
  trace : list Step
}.

Inductive MachineOption :=
| WithEventQueueSize (size : nat)
| WithData (d : Data)
| WithStateChangeCallback (f : StateID -> StateID -> Env -> Env).

Definition with_env (m : Machine) (e : Env) : Machine :=
  {| definition := definition m; currentState := currentState m; env := e;
     stateChangeCallback := stateChangeCallback m; children := children m;
     depth := depth m; trace := trace m |}.

Definition with_current (m : Machine) (s : StateID) : Machine :=
  {| definition := definition m; currentState := s; env := env m;
     stateChangeCallback := stateChangeCallback m; children := children m;
     depth := depth m; trace := trace m |}.

Definition record (m : Machine) (l : list Step) : Machine :=
  {| definition := definition m; currentState := currentState m; env := env m;
     stateChangeCallback := stateChangeCallback m; children := children m;
     depth := depth m; trace := trace m ++ l |}.

Definition OnStateChange (m : Machine) (f : StateID -> StateID -> Env -> Env) : Machine :=
  {| definition := definition m; currentState := currentState m; env := env m;
     stateChangeCallback := Some f; children := children m;
     depth := depth m; trace := trace m |}.

Definition apply_option (m : Machine) (o : MachineOption) : Machine :=
  match o with
  | WithEventQueueSize size =>
      with_env m {| timers := timers (env m); clock := clock (env m); events := [];
                    capacity := size; data := data (env m) |}
  | WithData d =>
      with_env m {| timers := timers (env m); clock := clock (env m);
                    events := events (env m); capacity := capacity (env m); data := d |}
  | WithStateChangeCallback f => OnStateChange m f
  end.

(** unnamed/part_001: [computeDepth]. *)
Fixpoint computeDepth_loop (d : Definition_) (fuel : nat) (depth_ : nat)
    (current : StateID) : nat :=
  match fuel with
  | O => depth_
  | S fuel' =>
      if bool_decide (current = "") then depth_
      else match states d !! current with
           | None => depth_
           | Some state =>
               if bool_decide (Parent state = "") then depth_
               else computeDepth_loop d fuel' (S depth_) (Parent state)
           end
  end.

Definition computeDepth (d : Definition_) (id : StateID) : nat :=
  computeDepth_loop d (S (size (states d))) 0 id.

(** The loop of [Build] that appends a transition for every state with a
    [TimeoutTarget]; it stops at the first undefined target. *)
Fixpoint add_timeout_transitions (d : Definition_) (l : list (StateID * State))
    (acc : list Transition) : list Transition * option error :=
  match l with
  | [] => (acc, None)
  | (id, state) :: l' =>
      if bool_decide (TimeoutTarget state ≠ "") then
        if defined d (TimeoutTarget state) then
          add_timeout_transitions d l'
            (acc ++ [{| From := id; Event_ := TimeoutEvent state;
                        To := TimeoutTarget state; Guard := None; Action := None |}])
        else (acc, Some (ErrTimeoutTargetUndefined id (TimeoutTarget state)))
      else add_timeout_transitions d l' acc
  end.

Definition build_children (d : Definition_) : gmap StateID (list StateID) :=
  foldl (fun ch p =>
           if bool_decide (Parent (snd p) ≠ "")
           then <[Parent (snd p) := default [] (ch !! Parent (snd p)) ++ [fst p]]> ch
           else ch)
        ∅ (map_to_list (states d)).

Definition build_depth (d : Definition_) : gmap StateID nat :=
  foldl (fun dp p => <[fst p := computeDepth d (fst p)]> dp) ∅ (map_to_list (states d)).

(** [Build] returns the definition as it leaves it (transitions may have
    been appended) and either an error, with no machine, or the machine. *)
Definition Build (default_data : Data) (d : Definition_) (opts : list MachineOption)
    : Definition_ * (error + Machine) :=
  match Validate d with
  | Some e => (d, inl (ErrInvalidDefinition e))
  | None =>
      let '(ts, r) := add_timeout_transitions d (map_to_list (states d)) (transitions d) in
      let d' := {| states := states d; transitions := ts; initial := initial d |} in
      match r with
      | Some e => (d', inl e)
      | None =>
          let m := {| definition := d'; currentState := "";
                      env := {| timers := ∅; clock := []; events := [];
                                capacity := 100; data := default_data |};
                      stateChangeCallback := None; children := ∅; depth := ∅;
                      trace := [] |} in
          let m := foldl apply_option m opts in
          (d', inr {| definition := definition m; currentState := currentState m;
                      env := env m; stateChangeCallback := stateChangeCallback m;
                      children := build_children d'; depth := build_depth d';
                      trace := trace m |})
      end
  end.

Definition makeContext (m : Machine) (ev : option Event) : Context :=
  {| FSM_currentState := currentState m; ctx_Event := ev; FromState := ""; ToState := "" |}.

Definition with_states (c : Context) (from to : StateID) : Context :=
  {| FSM_currentState := FSM_currentState c; ctx_Event := ctx_Event c;
     FromState := from; ToState := to |}.

(** The bound on the iterations of a loop that climbs the parent chain of a
    hierarchy without cycles. *)
Definition chain_fuel (d : Definition_) : nat := S (size (states d)).

Fixpoint isInState_loop (d : Definition_) (fuel : nat) (id current : StateID) : option bool :=
  match fuel with
  | O => None
  | S fuel' =>
      if bool_decide (current = "") then Some false
      else if bool_decide (current = id) then Some true
      else match states d !! current with
           | None => Some false
           | Some state => isInState_loop d fuel' id (Parent state)
           end
  end.

Definition IsInState (m : Machine) (id : StateID) : option bool :=
  isInState_loop (definition m) (chain_fuel (definition m)) id (currentState m).

Definition matches (ev : EventID) (src : StateID) (t : Transition) : bool :=
  bool_decide (Event_ t = ev) && bool_decide (From t = src).

(** The first loop of [findAllTransitions]. *)
Fixpoint findAllTransitions_loop (d : Definition_) (fuel : nat) (ev : EventID)
    (current : StateID) (found : list Transition) : option (list Transition) :=
  match fuel with
  | O => None
  | S fuel' =>
      if bool_decide (current = "") then Some found
      else
        let found := found ++ List.filter (matches ev current) (transitions d) in
        match states d !! current with
        | None => Some found
        | Some state => findAllTransitions_loop d fuel' ev (Parent state) found
        end
  end.

Definition findAllTransitions (m : Machine) (ev : Event) : option (list Transition) :=
  let d := definition m in
  match findAllTransitions_loop d (chain_fuel d) (ID ev) (currentState m) [] with
  | None => None
  | Some found => Some (found ++ List.filter (matches (ID ev) WildcardState) (transitions d))
  end.

Fixpoint ancestors_loop (d : Definition_) (fuel : nat) (current : StateID)
    (acc : gset StateID) : option (gset StateID) :=
  match fuel with
  | O => None
  | S fuel' =>
      if bool_decide (current = "") then Some acc
      else
        let acc := {[current]} ∪ acc in
        match states d !! current with
        | None => Some acc
        | Some state => ancestors_loop d fuel' (Parent state) acc
        end
  end.

Fixpoint findLCA_walk (d : Definition_) (fuel : nat) (ancestorsA : gset StateID)
    (current : StateID) : option StateID :=
  match fuel with
  | O => None
  | S fuel' =>
      if bool_decide (current ∈ ancestorsA) then Some current
      else match states d !! current with
           | None => Some ""
           | Some state => findLCA_walk d fuel' ancestorsA (Parent state)
           end
  end.

Definition findLCA (d : Definition_) (a b : StateID) : option StateID :=
  if bool_decide (a = b) then Some a
  else match ancestors_loop d (chain_fuel d) a ∅ with
       | None => None
       | Some anc => findLCA_walk d (chain_fuel d) ({[""]} ∪ anc) b
       end.

Fixpoint pathFromAncestor_loop (d : Definition_) (fuel : nat) (ancestor current : StateID)
    (path : list StateID) : option (list StateID) :=
  match fuel with
  | O => None
  | S fuel' =>
      if bool_decide (current = "") || bool_decide (current = ancestor) then Some path
      else
        let path := current :: path in
        match states d !! current with
        | None => Some path
        | Some state => pathFromAncestor_loop d fuel' ancestor (Parent state) path
        end
  end.

Definition pathFromAncestor (d : Definition_) (target ancestor : StateID) : option (list StateID) :=
  pathFromAncestor_loop d (chain_fuel d) ancestor target [].

Definition timeout_timer_name (id : StateID) : string := "_timeout_" +:+ id.

Definition stop_timer_step (name : string) (m : Machine) : Machine :=
  record (with_env m (StopTimer name (env m))) [StepStopTimer name].

Definition run_callback (f : option Callback) (c : Context) (s : list Step) (m : Machine)
    : Machine * option error :=
  match f with
  | None => (m, None)
  | Some f => let '(e, r) := f c (env m) in (record (with_env m e) s, r)
  end.

Definition exitState (id : StateID) (m : Machine) : Machine * option error :=
  match states (definition m) !! id with
  | None => (m, None)
  | Some state =>
      let m := record (with_env m (cleanupTimersForState id (env m))) [StepCleanupTimers id] in
      let m := foldl (fun m name => stop_timer_step name m) m (DeclaredTimers state) in
      let m := stop_timer_step (timeout_timer_name id) m in
      let '(m, r) := run_callback (OnExit state) (makeContext m None) [StepOnExit id] m in
      match r with
      | Some err => (m, Some (ErrExitActionFailed id err))
      | None => (m, None)
      end
  end.

Fixpoint exitToAncestor_loop (fuel : nat) (ancestor current : StateID) (m : Machine)
    : option (Machine * option error) :=
  match fuel with
  | O => None
  | S fuel' =>
      if bool_decide (current = "") || bool_decide (current = ancestor) then Some (m, None)
      else
        let '(m, r) := exitState current m in
        match r with
        | Some err => Some (m, Some err)
        | None =>
            match states (definition m) !! current with
            | None => Some (m, None)
            | Some state => exitToAncestor_loop fuel' ancestor (Parent state) m
            end
        end
  end.

Definition exitToAncestor (from ancestor : StateID) (m : Machine)
    : option (Machine * option error) :=
  exitToAncestor_loop (chain_fuel (definition m)) ancestor from m.

Definition start_timeout (id : StateID) (state : State) (m : Machine) : Machine :=
  if bool_decide (0 < Timeout state)%Z && bool_decide (TimeoutEvent state ≠ "") then
    record
      (with_env m
         (startTimerInternalWithAction (timeout_timer_name id) (Timeout state)
            {| ID := TimeoutEvent state; Payload_of := None |} TimerScopeState id
            (match TimeoutAction state with Some _ => Some id | None => None end)
            (env m)))
      [StepStartTimeout id (timeout_timer_name id)]
  else m.

(** The condition block of [enterState]: the next state, empty when the
    state is not a pseudo-state, has no condition or resolves to nothing. *)
Definition resolve (id : StateID) (state : State) (ev : option Event) (m : Machine)
    : Machine * StateID :=
  if is_pseudo (Type_ state) then
    match Condition state with
    | Some cond =>
        let '(e, next) := cond (makeContext m ev) (env m) in
        (record (with_env m e) [StepResolve id next], next)
    | None => (m, "")
    end
  else (m, "").

Fixpoint enterState (fuel : nat) (id : StateID) (ev : option Event) (fromState : StateID)
    (m : Machine) : option (Machine * option error) :=
  match fuel with
  | O => None
  | S fuel' =>
      match states (definition m) !! id with
      | None => Some (m, Some (ErrStateNotFound id))
      | Some state =>
          let m := record (with_current m id) [StepSetCurrent id] in
          let m := start_timeout id state m in
          let '(m, r) := run_callback (OnEnter state)
                           (with_states (makeContext m ev) fromState id)
                           [StepOnEnter id fromState] m in
          match r with
          | Some err => Some (m, Some (ErrEntryActionFailed id err))
          | None =>
              let '(m, next) := resolve id state ev m in
              if bool_decide (next ≠ "") then
                let '(m, r) := exitState id m in
                match r with
                | Some err => Some (m, Some err)
                | None => enterState fuel' next ev id m
                end
              else if bool_decide (DefaultChild state ≠ "") then
                enterState fuel' (DefaultChild state) ev id m
              else Some (m, None)
          end
      end
  end.

(** The loop of [enterFromAncestor] over the path. *)
Fixpoint enter_path (fuel : nat) (path : list StateID) (ev : option Event)
    (prevState : StateID) (m : Machine) : option (Machine * option error) :=
  match path with
  | [] => Some (m, None)
  | stateID :: path' =>
      match enterState fuel stateID ev prevState m with
      | None => None
      | Some (m, Some err) => Some (m, Some err)
      | Some (m, None) => enter_path fuel path' ev stateID m
      end
  end.

Definition enterFromAncestor (fuel : nat) (target ancestor : StateID) (ev : option Event)
    (fromState : StateID) (m : Machine) : option (Machine * option error) :=
  if bool_decide (target = ancestor) then enterState fuel target ev fromState m
  else match pathFromAncestor (definition m) target ancestor with
       | None => None
       | Some path => enter_path fuel path ev fromState m
       end.

Definition notify (from to : StateID) (m : Machine) : Machine :=
  match stateChangeCallback m with
  | Some f => record (with_env m (f from to (env m))) [StepNotify from to]
  | None => m
  end.

Definition executeTransition (fuel : nat) (t : Transition) (ev : Event) (m : Machine)
    : option (Machine * option error) :=
  let fromState := currentState m in
  let toState := To t in
  match findLCA (definition m) fromState toState with
  | None => None
  | Some lca =>
      match exitToAncestor fromState lca m with
      | None => None
      | Some (m, Some err) => Some (m, Some (ErrExitFailed err))
      | Some (m, None) =>
          let '(m, r) := run_callback (Action t)
                           (with_states (makeContext m (Some ev)) fromState toState)
                           [StepAction fromState toState] m in
          match r with
          | Some err => Some (m, Some (ErrTransitionActionFailed err))
          | None =>
              match enterFromAncestor fuel toState lca (Some ev) fromState m with
              | None => None
              | Some (m, Some err) => Some (m, Some (ErrEnterFailed err))
              | Some (m, None) =>
                  if bool_decide (fromState ≠ currentState m)
                  then Some (notify fromState (currentState m) m, None)
                  else Some (m, None)
              end
          end
      end
  end.

(** The guard loop of [processEvent]; [c] is the context made once, before
    the loop. *)
Fixpoint try_transitions (fuel : nat) (c : Context) (ev : Event) (ts : list Transition)
    (m : Machine) : option (Machine * option error) :=
  match ts with
  | [] => Some (m, None)
  | t :: ts' =>
      match Guard t with
      | None => executeTransition fuel t ev m
      | Some g =>
          let '(e, passed) := g c (env m) in
          let m := record (with_env m e) [StepGuard (From t) (To t) passed] in
          if passed then executeTransition fuel t ev m
          else try_transitions fuel c ev ts' m
      end
  end.

Definition processEvent (fuel : nat) (ev : Event) (m : Machine)
    : option (Machine * option error) :=
  match findAllTransitions m ev with
  | None => None
  | Some ts => try_transitions fuel (makeContext m (Some ev)) ev ts m
  end.

Definition SetState (fuel : nat) (newState : StateID) (m : Machine)
    : option (Machine * option error) :=
  if negb (defined (definition m) newState) then Some (m, Some (ErrUnknownState newState))
  else if bool_decide (currentState m = newState) then Some (m, None)
  else
    let fromState := currentState m in
    let '(m1, r) := exitState (currentState m) m in
    match r with
    | Some err => Some (m1, Some (ErrSetStateExit (currentState m) err))
    | None =>
        match enterState fuel newState None fromState m1 with
        | None => None
        | Some (m2, Some err) => Some (m2, Some (ErrSetStateEnter newState err))
        | Some (m2, None) => Some (notify fromState (currentState m2) m2, None)
        end
    end.

Definition Start (fuel : nat) (m : Machine) : option (Machine * option error) :=
  match enterState fuel (initial (definition m)) None "" m with
  | None => None
  | Some (m, Some err) => Some (m, Some (ErrInitialEntryFailed err))
  | Some (m, None) => Some (m, None)
  end.

Definition Stop (m : Machine) : Machine := with_env m (StopAllTimers (env m)).

(** The callback a timer entry refers to. *)
Definition timer_action (d : Definition_) (a : option StateID) : option Callback :=
  match a with
  | None => None
  | Some id => match states d !! id with
               | Some state => TimeoutAction state
               | None => None
               end
  end.

(** The function given to [time.AfterFunc] in
    [startTimerInternalWithAction], run when the timer fires. *)
Definition timer_body (f : TimerClosure) (m : Machine) : Machine :=
  match timers (env m) !! cl_name f with
  | None => m
  | Some entry =>
      let timerAction := action entry in
      let timerDuration := duration entry in
      let m := record (with_env m (set_timers (env m) (delete (cl_name f) (timers (env m)))
                                     (clock (env m))))
                 [StepTimerRemoved (cl_name f)] in
      match timer_action (definition m) timerAction with
      | Some act =>
          let '(e, r) := act (makeContext m None) (env m) in
          match r with
          | Some _ =>
              record
                (with_env m
                   (startTimerInternalWithAction (cl_name f) timerDuration (cl_event f)
                      (cl_scope f) (cl_owner f) timerAction e))
                [StepTimerAction (cl_name f) true; StepTimerRestart (cl_name f)]
          | None =>
              record (with_env m (Send (cl_event f) e))
                [StepTimerAction (cl_name f) false; StepSend (ID (cl_event f))]
          end
      | None => record (with_env m (Send (cl_event f) (env m))) [StepSend (ID (cl_event f))]
      end
  end.

(** The runtime fires the scheduled timer [h]. *)
Definition timer_fire (h : nat) (m : Machine) : Machine :=
  match clock (env m) !! h with
  | Some t =>
      if armed t then
        timer_body (fn t)
          (with_env m (set_timers (env m) (timers (env m))
                         (alter (fun t => {| fn := fn t; armed := false; stops := stops t |})
                            h (clock (env m)))))
      else m
  | None => m
  end.

(** ** Vocabulary of the properties *)

(** The states visited by a loop that climbs from [current] through the
    parents until it reaches the empty id, [stop], or an undeclared state
    (which is still visited), innermost first. *)
Fixpoint climb (d : Definition_) (fuel : nat) (stop current : StateID) : option (list StateID) :=
  match fuel with
  | O => None
  | S fuel' =>
      if bool_decide (current = "") || bool_decide (current = stop) then Some []
      else match states d !! current with
           | None => Some [current]
           | Some state => cons current <$> climb d fuel' stop (Parent state)
           end
  end.

(** The steps of leaving a declared state, in the order of [exitState]. *)
Definition exit_steps (id : StateID) (state : State) : list Step :=
  [StepCleanupTimers id]
  ++ map StepStopTimer (DeclaredTimers state)
  ++ [StepStopTimer (timeout_timer_name id)]
  ++ match OnExit state with Some _ => [StepOnExit id] | None => [] end.

Definition exit_steps_of (d : Definition_) (id : StateID) : list Step :=
  match states d !! id with
  | Some state => exit_steps id state
  | None => []
  end.

(** The order of the exit steps as the specification words it: State-scoped
    timers, then the declarative timeout, then the declared names, then the
    exit callback. *)
Definition spec_exit_steps (id : StateID) (state : State) : list Step :=
  [StepCleanupTimers id]
  ++ [StepStopTimer (timeout_timer_name id)]
  ++ map StepStopTimer (DeclaredTimers state)
  ++ match OnExit state with Some _ => [StepOnExit id] | None => [] end.

(** The exit of [id] from [m] records its steps in the order the
    specification words. *)
Definition spec_exit_order (m : Machine) (id : StateID) : Prop :=
  ∀ state, states (definition m) !! id = Some state →
           trace (exitState id m).1 = trace m ++ spec_exit_steps id state.

Definition declares_timeout (state : State) : bool :=
  bool_decide (0 < Timeout state)%Z && bool_decide (TimeoutEvent state ≠ "").


(** All the transitions of [ts] carry a guard and every guard, run in turn
    with context [c] from environment [e], returns false; the result is the
    environment they leave. *)
Fixpoint run_rejected (c : Context) (ts : list Transition) (e : Env) : option Env :=
  match ts with
  | [] => Some e
  | t :: ts' =>
      match Guard t with
      | None => None
      | Some g => let '(e', passed) := g c e in
                  if passed then None else run_rejected c ts' e'
      end
  end.

(** A transition is chosen from environment [e]: it has no guard, or its
    guard returns true; the environment the guard leaves. *)
Definition chosen (c : Context) (t : Transition) (e : Env) : option Env :=
  match Guard t with
  | None => Some e
  | Some g => let '(e', passed) := g c e in if passed then Some e' else None
  end.


(** The parent of a declared state with a non-empty parent. *)
Definition parent_of (d : Definition_) (id : StateID) : option StateID :=
  match states d !! id with
  | Some state => if bool_decide (Parent state = "") then None else Some (Parent state)
  | None => None
  end.

Fixpoint parent_iter (d : Definition_) (k : nat) (id : StateID) : option StateID :=
  match k with
  | O => Some id
  | S k' => match parent_of d id with
            | Some p => parent_iter d k' p
            | None => None
            end
  end.

(** The defects of a definition. *)
Definition no_initial (d : Definition_) : Prop :=
  initial d = "" ∨ states d !! initial d = None.

Definition dangling_parent (d : Definition_) : Prop :=
  ∃ id state, states d !! id = Some state ∧ Parent state ≠ ""
              ∧ states d !! Parent state = None.

Definition dangling_default_child (d : Definition_) : Prop :=
  ∃ id state, states d !! id = Some state ∧ DefaultChild state ≠ ""
              ∧ states d !! DefaultChild state = None.

Definition dangling_transition (d : Definition_) : Prop :=
  ∃ t, t ∈ transitions d
       ∧ ((From t ≠ WildcardState ∧ states d !! From t = None) ∨ states d !! To t = None).

Definition missing_condition (d : Definition_) : Prop :=
  ∃ id state, states d !! id = Some state
              ∧ (Type_ state = StateCondition ∨ Type_ state = StateJunction)
              ∧ Condition state = None.

Definition parent_cycle (d : Definition_) : Prop :=
  ∃ id k, id ≠ "" ∧ parent_iter d (S k) id = Some id.

Definition dangling_timeout_target (d : Definition_) : Prop :=
  ∃ id state, states d !! id = Some state ∧ TimeoutTarget state ≠ ""
              ∧ states d !! TimeoutTarget state = None.

Definition defective (d : Definition_) : Prop :=
  no_initial d ∨ dangling_parent d ∨ dangling_default_child d ∨ dangling_transition d
  ∨ missing_condition d ∨ parent_cycle d ∨ dangling_timeout_target d.

(** The closure of a runtime timer and a table entry carry the same event,
    scope and owner. *)
Definition closure_matches (f : TimerClosure) (entry : timerEntry) : Prop :=
  event entry = cl_event f ∧ scope entry = cl_scope f ∧ ownerState entry = cl_owner f.

(** Every scheduled runtime timer is the one its name's table entry holds. *)
Definition timers_wf (e : Env) : Prop :=
  ∀ h t, clock e !! h = Some t → armed t = true →
         ∃ entry, timers e !! cl_name (fn t) = Some entry ∧ timer entry = h
                  ∧ closure_matches (fn t) entry.

(** Two entries with the same parameters (all fields but the runtime timer). *)
Definition same_parameters (e1 e2 : timerEntry) : Prop :=
  event e1 = event e2 ∧ scope e1 = scope e2 ∧ ownerState e1 = ownerState e2
  ∧ duration e1 = duration e2 ∧ action e1 = action e2.

(** The runtime fires the timer that the entry [name] holds. *)
Definition fire_by_name (name : string) (m : Machine) : Machine :=
  match timers (env m) !! name with
  | Some entry => timer_fire (timer entry) m
  | None => m
  end.

(** An action that fails whenever it is called, and does nothing else. *)
Definition always_fails (act : Callback) : Prop :=
  ∀ c e, ∃ err, act c e = (e, Some err).

(** [l] is an initial part of the climb from [current] towards [stop]:
    it starts at [current] and every next element is the parent of the one
    before; neither the empty id nor [stop] occurs in it. *)
Fixpoint climbs (d : Definition_) (stop current : StateID) (l : list StateID) : Prop :=
  match l with
  | [] => True
  | x :: l' =>
      x = current ∧ current ≠ "" ∧ current ≠ stop
      ∧ (l' = [] ∨ ∃ state, states d !! current = Some state ∧ climbs d stop (Parent state) l')
  end.

(** What a forced assignment to [id] records: the exit steps of the current
    leaf alone, directly followed, unless the exit callback failed, by the
    entry of [id]; on success a registered state-change callback is
    notified last, with the old leaf and the new one. *)
Definition forced_steps (fuel : nat) (id : StateID) (m : Machine) : Prop :=
  ∀ m' r, SetState fuel id m = Some (m', r) →
    ∃ rest, trace m' = trace m ++ exit_steps_of (definition m) (currentState m) ++ rest
            ∧ (rest = [] ∨ head rest = Some (StepSetCurrent id))
            ∧ (r = None →
               head rest = Some (StepSetCurrent id)
               ∧ (is_Some (stateChangeCallback m) →
                  last rest = Some (StepNotify (currentState m) (currentState m')))).

(** ** state.go, transition.go and the builder: declarations with options *)

Definition StateOption := State → State.

Definition WithParent (parent : StateID) : StateOption := fun s =>
  {| State_ID := State_ID s; Parent := parent; Type_ := Type_ s;
     DefaultChild := DefaultChild s; OnEnter := OnEnter s; OnExit := OnExit s;
     Condition := Condition s; Timeout := Timeout s; TimeoutEvent := TimeoutEvent s;
     TimeoutAction := TimeoutAction s; TimeoutTarget := TimeoutTarget s;
     DeclaredTimers := DeclaredTimers s |}.

Definition WithDefaultChild (child : StateID) : StateOption := fun s =>
  {| State_ID := State_ID s; Parent := Parent s; Type_ := Type_ s;
     DefaultChild := child; OnEnter := OnEnter s; OnExit := OnExit s;
     Condition := Condition s; Timeout := Timeout s; TimeoutEvent := TimeoutEvent s;
     TimeoutAction := TimeoutAction s; TimeoutTarget := TimeoutTarget s;
     DeclaredTimers := DeclaredTimers s |}.

Definition WithOnEnter (f : Callback) : StateOption := fun s =>
  {| State_ID := State_ID s; Parent := Parent s; Type_ := Type_ s;
     DefaultChild := DefaultChild s; OnEnter := Some f; OnExit := OnExit s;
     Condition := Condition s; Timeout := Timeout s; TimeoutEvent := TimeoutEvent s;
     TimeoutAction := TimeoutAction s; TimeoutTarget := TimeoutTarget s;
     DeclaredTimers := DeclaredTimers s |}.

Definition WithOnExit (f : Callback) : StateOption := fun s =>
  {| State_ID := State_ID s; Parent := Parent s; Type_ := Type_ s;
     DefaultChild := DefaultChild s; OnEnter := OnEnter s; OnExit := Some f;
     Condition := Condition s; Timeout := Timeout s; TimeoutEvent := TimeoutEvent s;
     TimeoutAction := TimeoutAction s; TimeoutTarget := TimeoutTarget s;
     DeclaredTimers := DeclaredTimers s |}.

(** [WithTimeout]; the variadic [action] is an option: when absent the
    field keeps its value. *)
Definition WithTimeout (dur : Z) (ev : EventID) (act : option Callback) : StateOption := fun s =>
  {| State_ID := State_ID s; Parent := Parent s; Type_ := Type_ s;
     DefaultChild := DefaultChild s; OnEnter := OnEnter s; OnExit := OnExit s;
     Condition := Condition s; Timeout := dur; TimeoutEvent := ev;
     TimeoutAction := match act with Some a => Some a | None => TimeoutAction s end;
     TimeoutTarget := TimeoutTarget s; DeclaredTimers := DeclaredTimers s |}.

Definition timeout_event_name (id target : StateID) : EventID :=
  "__timeout_" +:+ id +:+ "_to_" +:+ target.

Definition WithTimeoutTransition (dur : Z) (target : StateID) (act : option Callback)
    : StateOption := fun s =>
  {| State_ID := State_ID s; Parent := Parent s; Type_ := Type_ s;
     DefaultChild := DefaultChild s; OnEnter := OnEnter s; OnExit := OnExit s;
     Condition := Condition s; Timeout := dur;
     TimeoutEvent := timeout_event_name (State_ID s) target;
     TimeoutAction := match act with Some a => Some a | None => TimeoutAction s end;
     TimeoutTarget := target; DeclaredTimers := DeclaredTimers s |}.

Definition WithTimer (name : string) : StateOption := fun s =>
  {| State_ID := State_ID s; Parent := Parent s; Type_ := Type_ s;
     DefaultChild := DefaultChild s; OnEnter := OnEnter s; OnExit := OnExit s;
     Condition := Condition s; Timeout := Timeout s; TimeoutEvent := TimeoutEvent s;
     TimeoutAction := TimeoutAction s; TimeoutTarget := TimeoutTarget s;
     DeclaredTimers := DeclaredTimers s ++ [name] |}.

(** The common body of [State], [ConditionState], [JunctionState] and
    [FinalState]: a fresh state with its id, type and condition, the
    options applied in order, stored under the id. *)
Definition declare_state (d : Definition_) (id : StateID) (ty : StateType)
    (cond : option ConditionFn) (opts : list StateOption) : Definition_ :=
  add_state d id
    (foldl (fun s opt => opt s)
       {| State_ID := id; Parent := ""; Type_ := ty; DefaultChild := "";
          OnEnter := None; OnExit := None; Condition := cond; Timeout := 0;
          TimeoutEvent := ""; TimeoutAction := None; TimeoutTarget := "";
          DeclaredTimers := [] |}
       opts).

Definition Definition_State (d : Definition_) (id : StateID) (opts : list StateOption)
    : Definition_ :=
  declare_state d id StateNormal None opts.

Definition ConditionState (d : Definition_) (id : StateID) (cond : option ConditionFn)
    (opts : list StateOption) : Definition_ :=
  declare_state d id StateCondition cond opts.

Definition JunctionState (d : Definition_) (id : StateID) (cond : option ConditionFn)
    (opts : list StateOption) : Definition_ :=
  declare_state d id StateJunction cond opts.

Definition FinalState (d : Definition_) (id : StateID) (opts : list StateOption)
    : Definition_ :=
  declare_state d id StateFinal None opts.

Definition TransitionOption := Transition → Transition.

Definition WithGuard (g : GuardFn) : TransitionOption := fun t =>
  {| From := From t; Event_ := Event_ t; To := To t; Guard := Some g; Action := Action t |}.

(** The guard that [WithGuards] installs: the guards in order, stopping at
    the first that returns false. *)
Fixpoint all_guards (guards : list GuardFn) (c : Context) (e : Env) : Env * bool :=
  match guards with
  | [] => (e, true)
  | g :: guards' =>
      let '(e', passed) := g c e in
      if passed then all_guards guards' c e' else (e', false)
  end.

Definition WithGuards (guards : list GuardFn) : TransitionOption := fun t =>
  {| From := From t; Event_ := Event_ t; To := To t; Guard := Some (all_guards guards);
     Action := Action t |}.

Definition WithAction (f : Callback) : TransitionOption := fun t =>
  {| From := From t; Event_ := Event_ t; To := To t; Guard := Guard t; Action := Some f |}.

Definition Definition_Transition (d : Definition_) (from : StateID) (ev : EventID)
    (to : StateID) (opts : list TransitionOption) : Definition_ :=
  add_transition d
    (foldl (fun t opt => opt t)
       {| From := from; Event_ := ev; To := to; Guard := None; Action := None |} opts).

Definition AnyStateTransition (d : Definition_) (ev : EventID) (to : StateID)
    (opts : list TransitionOption) : Definition_ :=
  Definition_Transition d WildcardState ev to opts.

(** machine.go: [StateHistory]. *)
Definition StateHistory (m : Machine) : list StateID := [currentState m].

(** ** Further vocabulary *)

(** The current leaf is the empty id of an unstarted machine or a declared
    state. *)
Definition leaf_declared (m : Machine) : Prop :=
  currentState m = "" ∨ is_Some (states (definition m) !! currentState m).

(** The first state of [chain] that belongs to [among], the root if none. *)
Fixpoint first_in (among : gset StateID) (chain : list StateID) : StateID :=
  match chain with
  | [] => ""
  | x :: chain' => if bool_decide (x ∈ among) then x else first_in among chain'
  end.

(** The transition [Build] creates for a state with a timeout target. *)
Definition timeout_transition (id : StateID) (state : State) : Transition :=
  {| From := id; Event_ := TimeoutEvent state; To := TimeoutTarget state;
     Guard := None; Action := None |}.

(** Every guard of [guards] passes, each run on the environment the one
    before left; the environment the last one leaves. *)
Fixpoint guards_pass (guards : list GuardFn) (c : Context) (e : Env) : option Env :=
  match guards with
  | [] => Some e
  | g :: guards' => if (g c e).2 then guards_pass guards' c (g c e).1 else None
  end.

(** ** Concrete graphs

    Small graphs on which the engine is run below; [dat] is the
    application data of the machine. *)

Definition ok_callback : Callback := fun _ e => (e, None).

Definition failing_callback : Callback :=
  fun _ e => (e, Some (UserError "not yet")).

Definition make_state (id parent : StateID) (ty : StateType) (child : StateID)
    (names : list string) (exit : option (Callback))
    (cond : option (ConditionFn)) : State :=
  {| State_ID := id; Parent := parent; Type_ := ty; DefaultChild := child;
     OnEnter := None; OnExit := exit; Condition := cond; Timeout := 0; TimeoutEvent := "";
     TimeoutAction := None; TimeoutTarget := ""; DeclaredTimers := names |}.

Definition empty_env (dat : Data) : Env :=
  {| timers := ∅; clock := []; events := []; capacity := 100; data := dat |}.

Definition machine_at (dat : Data) (d : Definition_) (s : StateID)
    (cb : option (StateID → StateID → Env → Env))
    : Machine :=
  {| definition := d; currentState := s; env := empty_env dat; stateChangeCallback := cb;
     children := ∅; depth := ∅; trace := [] |}.

Definition child1_state : State :=
  make_state "child1" "parent" StateNormal "" ["poll"] (Some ok_callback) None.

Definition t_guarded : Transition :=
  {| From := "child1"; Event_ := "next"; To := "child2";
     Guard := Some (fun _ e => (e, false)); Action := None |}.

Definition t_wildcard : Transition :=
  {| From := WildcardState; Event_ := "next"; To := "child2"; Guard := None; Action := None |}.

Definition t_parent : Transition :=
  {| From := "parent"; Event_ := "next"; To := "off"; Guard := None; Action := None |}.

Definition t_fail : Transition :=
  {| From := "bad"; Event_ := "next"; To := "off"; Guard := None; Action := None |}.

(** parent (default child child1) with children child1 and child2; off and
    bad are roots; bad's exit callback fails. *)
Definition hier_def : Definition_ :=
  {| states := list_to_map
       [("parent", make_state "parent" "" StateNormal "child1" [] (Some ok_callback) None);
        ("child1", child1_state);
        ("child2", make_state "child2" "parent" StateNormal "" [] None None);
        ("off", make_state "off" "" StateNormal "" [] None None);
        ("bad", make_state "bad" "" StateNormal "" [] (Some failing_callback) None)];
     transitions := [t_guarded; t_wildcard; t_parent; t_fail];
     initial := "parent" |}.

Definition ev_next : Event := {| ID := "next"; Payload_of := None |}.

Definition cond_state : State :=
  make_state "c" "" StateCondition "" [] None (Some (fun _ e => (e, ""))).

(** A single Condition state whose resolution function returns the empty id. *)
Definition cond_def : Definition_ :=
  {| states := list_to_map [("c", cond_state)]; transitions := []; initial := "c" |}.

Definition junction_state : State :=
  {| State_ID := "j"; Parent := ""; Type_ := StateJunction; DefaultChild := "";
     OnEnter := Some ok_callback; OnExit := Some ok_callback;
     Condition := Some (fun _ e => (e, "off")); Timeout := 5; TimeoutEvent := "late";
     TimeoutAction := None; TimeoutTarget := ""; DeclaredTimers := [] |}.

Definition junction_def : Definition_ :=
  {| states := list_to_map
       [("j", junction_state);
        ("off", make_state "off" "" StateNormal "" [] None None)];
     transitions := []; initial := "j" |}.

Definition polling_state : State :=
  {| State_ID := "polling"; Parent := ""; Type_ := StateNormal; DefaultChild := "";
     OnEnter := None; OnExit := None; Condition := None; Timeout := 400;
     TimeoutEvent := "poll_complete"; TimeoutAction := Some failing_callback;
     TimeoutTarget := ""; DeclaredTimers := [] |}.

Definition polling_def : Definition_ :=
  {| states := list_to_map [("polling", polling_state)]; transitions := [];
     initial := "polling" |}.

(** The machine after [Start] on [polling_def]: the declarative timeout of
    polling is scheduled as runtime timer 0. *)
Definition polling_machine (dat : Data) : Machine :=
  start_timeout "polling" polling_state (machine_at dat polling_def "polling" None).

Definition cyclic_def : Definition_ :=
  {| states := list_to_map
       [("a", make_state "a" "b" StateNormal "" [] None None);
        ("b", make_state "b" "a" StateNormal "" [] None None)];
     transitions := []; initial := "a" |}.

Definition tick : Event := {| ID := "tick"; Payload_of := None |}.

(** An environment in which the timer named t is already running. *)
Definition env_with_timer (dat : Data) : Env := StartTimer "t" 10 tick (empty_env dat).

(** A light declared with the builder: on falls back to off after a
    timeout, through a generated transition. *)
Definition light_def : Definition_ :=
  Initial
    (Definition_Transition
       (Definition_State
          (Definition_State NewDefinition "off" [])
          "on" [WithTimeoutTransition 5 "off" None])
       "off" "toggle" "on" [])
    "off".

Definition ev_other : Event := {| ID := "other"; Payload_of := None |}.

Definition t_sibling : Transition :=
  {| From := "child1"; Event_ := "swap"; To := "child2"; Guard := None; Action := None |}.

Definition t_self : Transition :=
  {| From := "off"; Event_ := "again"; To := "off"; Guard := None; Action := None |}.

(** ** Frame lemmas: what the steps leave alone *)

Lemma foldl_stop_frame (l : list string) (m : Machine) :
  let m' := foldl (fun m name => stop_timer_step name m) m l in
  definition m' = definition m ∧ currentState m' = currentState m
  ∧ stateChangeCallback m' = stateChangeCallback m
  ∧ trace m' = trace m ++ map StepStopTimer l.
Proof.
  revert m. induction l as [|name l IH]; intros m; simpl.
  - by rewrite app_nil_r.
  - destruct (IH (stop_timer_step name m)) as (Hd & Hc & Hs & Ht).
    rewrite Hd, Hc, Hs, Ht. simpl. by rewrite <- app_assoc.
Qed.

Lemma run_callback_frame (f : option Callback) (c : Context) (s : list Step) (m : Machine) :
  let m' := (run_callback f c s m).1 in
  definition m' = definition m ∧ currentState m' = currentState m
  ∧ stateChangeCallback m' = stateChangeCallback m
  ∧ trace m' = trace m ++ match f with Some _ => s | None => [] end.
Proof.
  unfold run_callback. destruct f as [f|]; simpl.
  - destruct (f c (env m)) as [e r]. simpl. done.
  - by rewrite app_nil_r.
Qed.

Lemma exitState_frame (id : StateID) (m : Machine) :
  let m' := (exitState id m).1 in
  definition m' = definition m ∧ currentState m' = currentState m
  ∧ stateChangeCallback m' = stateChangeCallback m
  ∧ trace m' = trace m ++ exit_steps_of (definition m) id.
Proof.
  unfold exitState, exit_steps_of.
  destruct (states (definition m) !! id) as [state|] eqn:Hst; simpl.
  2: { by rewrite app_nil_r. }
  set (m1 := record (with_env m (cleanupTimersForState id (env m))) [StepCleanupTimers id]).
  pose proof (foldl_stop_frame (DeclaredTimers state) m1) as (Hd & Hc & Hs & Ht).
  set (m2 := foldl (fun m name => stop_timer_step name m) m1 (DeclaredTimers state)) in *.
  set (m3 := stop_timer_step (timeout_timer_name id) m2).
  pose proof (run_callback_frame (OnExit state) (makeContext m3 None) [StepOnExit id] m3)
    as (Hd' & Hc' & Hs' & Ht').
  destruct (run_callback (OnExit state) (makeContext m3 None) [StepOnExit id] m3) as [m4 r].
  simpl in *.
  assert (definition m4 = definition m ∧ currentState m4 = currentState m
          ∧ stateChangeCallback m4 = stateChangeCallback m
          ∧ trace m4 = trace m ++ exit_steps id state) as H.
  { rewrite Hd', Hc', Hs', Ht'. subst m3. simpl. rewrite Hd, Hc, Hs, Ht. subst m1. simpl.
    unfold exit_steps. repeat split; try done.
    rewrite <- !app_assoc. done. }
  destruct r; exact H.
Qed.

Lemma exitToAncestor_loop_spec (fuel : nat) (ancestor current : StateID) (m m' : Machine)
    (r : option error) :
  exitToAncestor_loop fuel ancestor current m = Some (m', r) →
  definition m' = definition m ∧ currentState m' = currentState m
  ∧ stateChangeCallback m' = stateChangeCallback m
  ∧ ∃ exited, climbs (definition m) ancestor current exited
      ∧ trace m' = trace m ++ flat_map (exit_steps_of (definition m)) exited
      ∧ (r = None → climb (definition m) fuel ancestor current = Some exited).
Proof.
  revert current m. induction fuel as [|fuel IH]; intros current m; simpl; [done|].
  destruct (bool_decide (current = "") || bool_decide (current = ancestor)) eqn:Hstop.
  { intros [= <- <-]. repeat split; try done. exists []. simpl. by rewrite app_nil_r. }
  apply orb_false_iff in Hstop as [Hne Hna].
  apply bool_decide_eq_false in Hne. apply bool_decide_eq_false in Hna.
  pose proof (exitState_frame current m) as (Hd & Hc & Hs & Ht).
  destruct (exitState current m) as [m1 r1]. simpl in Hd, Hc, Hs, Ht.
  destruct r1 as [err|].
  { intros [= <- <-]. repeat split; try done. exists [current]. simpl.
    rewrite app_nil_r. repeat split; try done. by left. }
  rewrite Hd.
  destruct (states (definition m) !! current) as [state|] eqn:Hst.
  - intros Hloop. apply IH in Hloop as (Hd' & Hc' & Hs' & exited & Hcl & Ht' & Hfull).
    rewrite Hd', Hc', Hs', Hd, Hc, Hs. repeat split; try done.
    rewrite Hd in Hcl, Ht', Hfull.
    exists (current :: exited). simpl. repeat split; try done.
    + right. by exists state.
    + rewrite Ht', Ht. by rewrite <- app_assoc.
    + intros Hr. by rewrite (Hfull Hr).
  - intros [= <- <-]. repeat split; try done. exists [current]. simpl.
    rewrite app_nil_r. repeat split; try done. by left.
Qed.

(** C4 (as amended).  The states left by [exitToAncestor] are an initial
    part of the climb from the source leaf towards the ancestor, innermost
    first and excluding the ancestor, and all of it when no exit callback
    fails.  The steps recorded are, state by state in that order:
    State-scoped timer cleanup, then the declared timer names in
    declaration order, then the declarative-timeout timer, and only then
    the exit callback. *)
Theorem exit_order (from ancestor : StateID) (m m' : Machine) (r : option error) :
  exitToAncestor from ancestor m = Some (m', r) →
  (∃ exited,
      climbs (definition m) ancestor from exited
      ∧ trace m' = trace m ++ flat_map (exit_steps_of (definition m)) exited
      ∧ (r = None →
         climb (definition m) (chain_fuel (definition m)) ancestor from = Some exited))
  ∧ (∀ id state, states (definition m) !! id = Some state →
       exit_steps_of (definition m) id =
         StepCleanupTimers id
         :: map StepStopTimer (DeclaredTimers state)
         ++ StepStopTimer (timeout_timer_name id)
         :: match OnExit state with Some _ => [StepOnExit id] | None => [] end).
Proof.
  intros Hexit. split.
  - apply exitToAncestor_loop_spec in Hexit as (_ & _ & _ & exited & H). by exists exited.
  - intros id state Hst. unfold exit_steps_of. rewrite Hst. unfold exit_steps. simpl. done.
Qed.

(** C10.  Leaving a state never writes the current-leaf field, so when an
    event-driven transition aborts on a failing exit callback the machine
    still shows the leaf it had before the transition; only exit steps were
    recorded: no transition action ran and no state was entered. *)
Theorem exit_failure_keeps_leaf (fuel : nat) (t : Transition) (ev : Event)
    (m m' : Machine) (err : error) :
  executeTransition fuel t ev m = Some (m', Some (ErrExitFailed err)) →
  currentState m' = currentState m
  ∧ (∃ exited, trace m' = trace m ++ flat_map (exit_steps_of (definition m)) exited)
  ∧ (∀ id m0, currentState (exitState id m0).1 = currentState m0).
Proof.
  unfold executeTransition. intros H.
  split; [|split]; [| |intros id m0; apply exitState_frame].
  all: destruct (findLCA (definition m) (currentState m) (To t)) as [lca|]; [|done].
  all: destruct (exitToAncestor (currentState m) lca m) as [[m1 [e1|]]|] eqn:Hexit; [| |done].
  all: try (injection H as <- <-;
            apply exitToAncestor_loop_spec in Hexit as (_ & Hc & _ & exited & _ & Ht & _);
            first [exact Hc | by exists exited]).
  all: exfalso.
  all: destruct (run_callback (Action t) _ _ m1) as [m2 [e2|]]; [done|].
  all: destruct (enterFromAncestor fuel (To t) lca (Some ev) (currentState m) m2)
         as [[m3 [e3|]]|]; [done| |done].
  all: by case_bool_decide.
Qed.

Lemma start_timeout_frame (id : StateID) (state : State) (m : Machine) :
  let m' := start_timeout id state m in
  definition m' = definition m ∧ currentState m' = currentState m
  ∧ stateChangeCallback m' = stateChangeCallback m
  ∧ trace m' = trace m ++ (if declares_timeout state
                           then [StepStartTimeout id (timeout_timer_name id)] else []).
Proof.
  unfold start_timeout, declares_timeout.
  destruct (bool_decide (0 < Timeout state)%Z && bool_decide (TimeoutEvent state ≠ "")); simpl.
  - done.
  - by rewrite app_nil_r.
Qed.

Lemma resolve_frame (id : StateID) (state : State) (ev : option Event) (m : Machine) :
  let m' := (resolve id state ev m).1 in
  let next := (resolve id state ev m).2 in
  definition m' = definition m ∧ currentState m' = currentState m
  ∧ stateChangeCallback m' = stateChangeCallback m
  ∧ trace m' = trace m ++ (if is_pseudo (Type_ state)
                           then match Condition state with
                                | Some _ => [StepResolve id next]
                                | None => []
                                end
                           else [])
  ∧ (is_pseudo (Type_ state) = false ∨ Condition state = None → next = "").
Proof.
  unfold resolve. destruct (is_pseudo (Type_ state)); simpl.
  - destruct (Condition state) as [cond|]; simpl.
    + destruct (cond (makeContext m ev) (env m)) as [e next]. simpl.
      repeat split; try done. by intros [|].
    + rewrite app_nil_r. done.
  - rewrite app_nil_r. done.
Qed.


Lemma enterState_unfold (fuel : nat) (id : StateID) (ev : option Event) (from : StateID)
    (m : Machine) (state : State) :
  states (definition m) !! id = Some state →
  let m0 := start_timeout id state (record (with_current m id) [StepSetCurrent id]) in
  let entered := run_callback (OnEnter state) (with_states (makeContext m0 ev) from id)
                   [StepOnEnter id from] m0 in
  let resolved := resolve id state ev entered.1 in
  let left := exitState id resolved.1 in
  enterState (S fuel) id ev from m =
    match entered.2 with
    | Some err => Some (entered.1, Some (ErrEntryActionFailed id err))
    | None =>
        if bool_decide (resolved.2 ≠ "") then
          match left.2 with
          | Some err => Some (left.1, Some err)
          | None => enterState fuel resolved.2 ev id left.1
          end
        else if bool_decide (DefaultChild state ≠ "") then
          enterState fuel (DefaultChild state) ev id resolved.1
        else Some (resolved.1, None)
    end.
Proof.
  intros Hst m0 entered resolved left. simpl. rewrite Hst. fold m0. fold entered.
  destruct entered as [m1 [e1|]]; simpl; [done|].
  subst resolved left. simpl. destruct (resolve id state ev m1) as [m2 next]. simpl.
  case_bool_decide; [|done]. by destruct (exitState id m2) as [m3 [e3|]].
Qed.






Lemma enterState_frame (fuel : nat) (id : StateID) (ev : option Event) (from : StateID)
    (m m' : Machine) (r : option error) :
  enterState fuel id ev from m = Some (m', r) →
  definition m' = definition m ∧ stateChangeCallback m' = stateChangeCallback m
  ∧ ∃ steps, trace m' = trace m ++ steps
             ∧ (is_Some (states (definition m) !! id) → head steps = Some (StepSetCurrent id)).
Proof.
  revert id from m. induction fuel as [|fuel IH]; intros id from m; [done|].
  destruct (states (definition m) !! id) as [state|] eqn:Hst.
  2: { simpl. rewrite Hst. intros [= <- <-]. repeat split; try done.
       exists []. rewrite app_nil_r. split; [done|]. by intros [? ?]. }
  rewrite (enterState_unfold fuel id ev from m state Hst). cbv zeta.
  set (m0 := start_timeout id state (record (with_current m id) [StepSetCurrent id])).
  pose proof (start_timeout_frame id state (record (with_current m id) [StepSetCurrent id]))
    as (Hd0 & _ & Hs0 & Ht0). fold m0 in Hd0, Hs0, Ht0. simpl in Hd0, Hs0, Ht0.
  set (c := with_states (makeContext m0 ev) from id).
  pose proof (run_callback_frame (OnEnter state) c [StepOnEnter id from] m0)
    as (Hd1 & _ & Hs1 & Ht1).
  set (entered := run_callback (OnEnter state) c [StepOnEnter id from] m0) in *.
  pose proof (resolve_frame id state ev entered.1) as (Hd2 & _ & Hs2 & Ht2 & _).
  set (resolved := resolve id state ev entered.1) in *.
  pose proof (exitState_frame id resolved.1) as (Hd3 & _ & Hs3 & Ht3).
  set (left := exitState id resolved.1) in *.
  assert (Hhead : ∀ rest, trace m ++ [StepSetCurrent id] ++ rest
                          = trace m ++ (StepSetCurrent id :: rest)) by done.
  rewrite Ht0, <- app_assoc in Ht1.
  destruct (entered.2) as [err|].
  { intros [= <- <-]. rewrite Hd1, Hs1, Hd0, Hs0. repeat split; try done.
    eexists. rewrite Ht1, <- app_assoc, Hhead. done. }
  case_bool_decide.
  - destruct (left.2) as [err|].
    + intros [= <- <-]. rewrite Hd3, Hs3, Hd2, Hs2, Hd1, Hs1, Hd0, Hs0.
      repeat split; try done. eexists.
      rewrite Ht3, Ht2, Ht1, <- !app_assoc, Hhead. done.
    + intros Hrec. apply IH in Hrec as (Hd' & Hs' & steps & Ht' & _).
      rewrite Hd', Hs', Hd3, Hs3, Hd2, Hs2, Hd1, Hs1, Hd0, Hs0. repeat split; try done.
      eexists. rewrite Ht', Ht3, Ht2, Ht1, <- !app_assoc, Hhead. done.
  - case_bool_decide.
    + intros Hrec. apply IH in Hrec as (Hd' & Hs' & steps & Ht' & _).
      rewrite Hd', Hs', Hd2, Hs2, Hd1, Hs1, Hd0, Hs0. repeat split; try done.
      eexists. rewrite Ht', Ht2, Ht1, <- !app_assoc, Hhead. done.
    + intros [= <- <-]. rewrite Hd2, Hs2, Hd1, Hs1, Hd0, Hs0. repeat split; try done.
      eexists. rewrite Ht2, Ht1, <- !app_assoc, Hhead. done.
Qed.

Lemma first_error_None {A} (f : A → option error) (l : list A) :
  first_error f l = None ↔ ∀ x, x ∈ l → f x = None.
Proof.
  induction l as [|x l IH]; simpl.
  - split; [|done]. intros _ x Hx. by apply elem_of_nil in Hx.
  - destruct (f x) eqn:Hfx.
    + split; [done|]. intros H. rewrite (H x) in Hfx; [done|]. by left.
    + rewrite IH. split.
      * intros H y Hy. apply elem_of_cons in Hy as [->|Hy]; [done|]. by apply H.
      * intros H y Hy. apply H. by right.
Qed.

Lemma first_error_Some {A} (f : A → option error) (l : list A) (e : error) :
  first_error f l = Some e → ∃ x, x ∈ l ∧ f x = Some e.
Proof.
  induction l as [|x l IH]; simpl; [done|].
  destruct (f x) eqn:Hfx.
  - intros [= <-]. exists x. split; [by left|done].
  - intros H. destruct (IH H) as (y & Hy & Hfy). exists y. split; [by right|done].
Qed.

Lemma defined_true (d : Definition_) (id : StateID) :
  defined d id = true ↔ is_Some (states d !! id).
Proof. unfold defined. apply bool_decide_eq_true. Qed.

Lemma defined_false (d : Definition_) (id : StateID) :
  defined d id = false ↔ states d !! id = None.
Proof.
  unfold defined. rewrite bool_decide_eq_false. by rewrite eq_None_not_Some.
Qed.


Lemma is_pseudo_true (ty : StateType) :
  is_pseudo ty = true ↔ ty = StateCondition ∨ ty = StateJunction.
Proof. destruct ty; unfold is_pseudo; simpl; intuition congruence. Qed.

(** What a definition that passes [Validate] satisfies. *)
Lemma Validate_None (d : Definition_) :
  Validate d = None ↔
    initial d ≠ "" ∧ is_Some (states d !! initial d)
    ∧ (∀ id state, states d !! id = Some state →
         check_references d (id, state) = None ∧ check_condition (id, state) = None
         ∧ checkParentCycle d id = None)
    ∧ (∀ t, t ∈ transitions d → check_transition d t = None).
Proof.
  unfold Validate. case_bool_decide as Hi.
  { split; [done|]. by intros (? & _). }
  destruct (defined d (initial d)) eqn:Hdef; cbn [negb].
  2: { apply defined_false in Hdef. split; [done|]. intros (_ & [? H] & _). congruence. }
  apply defined_true in Hdef.
  destruct (first_error (check_references d) _) eqn:H1.
  { split; [done|]. intros (_ & _ & H & _).
    apply first_error_Some in H1 as ([id state] & Hin & Hf).
    apply elem_of_map_to_list in Hin. destruct (H id state Hin) as (H' & _). congruence. }
  destruct (first_error (check_transition d) _) eqn:H2.
  { split; [done|]. intros (_ & _ & _ & H).
    apply first_error_Some in H2 as (t & Hin & Hf). rewrite (H t Hin) in Hf. done. }
  destruct (first_error check_condition _) eqn:H3.
  { split; [done|]. intros (_ & _ & H & _).
    apply first_error_Some in H3 as ([id state] & Hin & Hf).
    apply elem_of_map_to_list in Hin. destruct (H id state Hin) as (_ & H' & _). congruence. }
  rewrite first_error_None in H1. rewrite first_error_None in H2.
  rewrite first_error_None in H3. rewrite first_error_None. split.
  - intros H4. repeat split; try done.
    + apply (H1 (id, state)). by apply elem_of_map_to_list.
    + apply (H3 (id, state)). by apply elem_of_map_to_list.
    + apply (H4 (id, state)). by apply elem_of_map_to_list.
  - intros (_ & _ & H & _) [id state] Hin. apply elem_of_map_to_list in Hin.
    by destruct (H id state Hin) as (_ & _ & ?).
Qed.

(** C9.  A forced assignment to the current leaf itself returns nil at
    once and leaves the whole machine as it was: no step is recorded, no
    timer is touched, the leaf is the same and nothing is notified. *)
Theorem SetState_same_state (fuel : nat) (m : Machine) :
  is_Some (states (definition m) !! currentState m) →
  SetState fuel (currentState m) m = Some (m, None).
Proof.
  intros Hdef. unfold SetState. apply defined_true in Hdef. rewrite Hdef. simpl.
  by rewrite bool_decide_eq_true_2.
Qed.

Lemma notify_frame (from to : StateID) (m : Machine) :
  definition (notify from to m) = definition m
  ∧ currentState (notify from to m) = currentState m
  ∧ trace (notify from to m)
    = trace m ++ match stateChangeCallback m with
                 | Some _ => [StepNotify from to]
                 | None => []
                 end.
Proof.
  unfold notify. destruct (stateChangeCallback m); simpl; [done|]. by rewrite app_nil_r.
Qed.

Lemma exit_steps_of_head (d : Definition_) (id : StateID) :
  is_Some (states d !! id) → ∃ rest, exit_steps_of d id = StepCleanupTimers id :: rest.
Proof. intros [state Hst]. unfold exit_steps_of. rewrite Hst. by eexists. Qed.

(** C7 (as amended).  A forced assignment to an undeclared id returns the
    unknown-state error and leaves the machine unchanged.  For a declared
    id other than the current leaf it leaves the current leaf only (the
    exit steps of that one state, no ancestor, no LCA), then enters the
    target directly, and on success notifies a registered state-change
    callback with the old leaf and the resulting one. *)
Theorem SetState_forced (fuel : nat) (id : StateID) (m : Machine) :
  (states (definition m) !! id = None →
     SetState fuel id m = Some (m, Some (ErrUnknownState id)))
  ∧ (is_Some (states (definition m) !! id) → id ≠ currentState m → forced_steps fuel id m).
Proof.
  split.
  - intros Hnone. unfold SetState. apply defined_false in Hnone. by rewrite Hnone.
  - intros Hdef Hne m' r. unfold SetState.
    pose proof Hdef as Hdef'. apply defined_true in Hdef'. rewrite Hdef'. simpl.
    rewrite bool_decide_eq_false_2 by done.
    pose proof (exitState_frame (currentState m) m) as (Hd1 & Hc1 & Hs1 & Ht1).
    destruct (exitState (currentState m) m) as [m1 [err|]]; simpl in Hd1, Hc1, Hs1, Ht1.
    { intros [= <- <-]. exists []. rewrite app_nil_r. split; [done|]. split; [by left|done]. }
    destruct (enterState fuel id None (currentState m) m1) as [[m2 r2]|] eqn:Hent; [|done].
    rewrite <- Hd1 in Hdef.
    apply enterState_frame in Hent as (Hd2 & Hs2 & steps & Ht2 & Hhead).
    specialize (Hhead Hdef). destruct steps as [|s0 steps]; [done|]. simpl in Hhead.
    injection Hhead as ->.
    destruct r2 as [err|].
    { intros [= <- <-]. exists (StepSetCurrent id :: steps).
      rewrite Ht2, Ht1, <- app_assoc. split; [done|]. split; [by right|done]. }
    intros [= <- <-].
    pose proof (notify_frame (currentState m) (currentState m2) m2) as (_ & Hc3 & Ht3).
    rewrite Hs2, Hs1 in Ht3.
    eexists. rewrite Ht3, Ht2, Ht1, <- !app_assoc. split; [done|]. split; [by right|].
    intros _. split; [done|]. intros [f Hf]. rewrite Hf, Hc3.
    by rewrite last_snoc.
Qed.



(** ** The timer subsystem *)

Lemma cancel_entry_spec (name : string) (e : Env) :
  timers (cancel_entry name e) = delete name (timers e)
  ∧ clock (cancel_entry name e)
    = match timers e !! name with
      | Some old => timer_Stop (timer old) (clock e)
      | None => clock e
      end
  ∧ length (clock (cancel_entry name e)) = length (clock e)
  ∧ events (cancel_entry name e) = events e
  ∧ capacity (cancel_entry name e) = capacity e.
Proof.
  unfold cancel_entry. destruct (timers e !! name) as [old|] eqn:Hold; simpl.
  - repeat split; try done. unfold timer_Stop. by rewrite length_alter.
  - repeat split; try done. symmetry. by apply delete_id.
Qed.

Lemma start_timer_spec (name : string) (dur : Z) (ev : Event) (sc : TimerScope)
    (owner : StateID) (act : option StateID) (e : Env) :
  let e' := startTimerInternalWithAction name dur ev sc owner act e in
  timers e' = <[name := {| timer := length (clock e); event := ev; scope := sc;
                           ownerState := owner; duration := dur; action := act |}]> (timers e)
  ∧ clock e' = clock (cancel_entry name e)
               ++ [{| fn := {| cl_name := name; cl_event := ev; cl_scope := sc;
                               cl_owner := owner |};
                      armed := true; stops := 0 |}]
  ∧ events e' = events e ∧ capacity e' = capacity e.
Proof.
  unfold startTimerInternalWithAction, time_AfterFunc.
  destruct (cancel_entry_spec name e) as (Ht & _ & Hl & He & Hc). simpl.
  rewrite Ht, Hl, He, Hc. by rewrite insert_delete_eq.
Qed.

(** C6.  Starting a timer under a name that is already in the table stops
    the prior runtime timer exactly once (one more [Stop] on it, and it is
    no longer scheduled), touches no other runtime timer, and puts the new
    entry in place of the old one: the table keeps its size.  In a
    well-formed timer state the new runtime timer is then the only
    scheduled one for that name, so the name cannot fire twice. *)
Theorem start_replaces (name : string) (dur : Z) (ev : Event) (sc : TimerScope)
    (owner : StateID) (act : option StateID) (e : Env) (old : timerEntry) :
  timers e !! name = Some old →
  let e' := startTimerInternalWithAction name dur ev sc owner act e in
  let new := {| timer := length (clock e); event := ev; scope := sc;
                ownerState := owner; duration := dur; action := act |} in
  timers e' = <[name := new]> (timers e)
  ∧ size (timers e') = size (timers e)
  ∧ (∀ t, clock e !! timer old = Some t →
          clock e' !! timer old = Some {| fn := fn t; armed := false; stops := S (stops t) |})
  ∧ (∀ h t, h ≠ timer old → clock e !! h = Some t → clock e' !! h = Some t)
  ∧ clock e' !! length (clock e)
    = Some {| fn := {| cl_name := name; cl_event := ev; cl_scope := sc; cl_owner := owner |};
              armed := true; stops := 0 |}
  ∧ (timers_wf e →
     timers_wf e'
     ∧ ∀ h t, clock e' !! h = Some t → armed t = true → cl_name (fn t) = name →
              h = length (clock e)).
Proof.
  intros Hold e' new.
  destruct (start_timer_spec name dur ev sc owner act e) as (Ht & Hc & _).
  fold e' in Ht, Hc. fold new in Ht.
  destruct (cancel_entry_spec name e) as (_ & Hcc & Hlen & _). rewrite Hold in Hcc.
  rewrite Hcc in Hc. unfold timer_Stop in Hc.
  set (stop := fun t : goTimer => {| fn := fn t; armed := false; stops := S (stops t) |}) in *.
  assert (Hlen' : length (alter stop (timer old) (clock e)) = length (clock e))
    by apply length_alter.
  assert (Hlow : ∀ h t, clock e' !! h = Some t → h < length (clock e) →
             (h = timer old ∧ armed t = false)
             ∨ (h ≠ timer old ∧ clock e !! h = Some t)).
  { intros h t Hh Hlt. rewrite Hc, lookup_app_l in Hh by lia.
    destruct (decide (h = timer old)) as [->|Hne].
    - left. rewrite list_lookup_alter_eq in Hh.
      destruct (clock e !! timer old); simpl in Hh; [|done]. injection Hh as <-. done.
    - right. by rewrite list_lookup_alter_ne in Hh. }
  assert (Hnew : clock e' !! length (clock e)
                 = Some {| fn := {| cl_name := name; cl_event := ev; cl_scope := sc;
                                    cl_owner := owner |}; armed := true; stops := 0 |}).
  { rewrite Hc, lookup_app_r by lia. by rewrite Hlen', Nat.sub_diag. }
  assert (Hhigh : ∀ h t, clock e' !! h = Some t → h < S (length (clock e))).
  { intros h t Hh. apply lookup_lt_Some in Hh. rewrite Hc, length_app, Hlen' in Hh.
    simpl in Hh. lia. }
  split; [done|]. split.
  { rewrite Ht. apply map_size_insert_Some. by exists old. }
  split.
  { intros t Hto. pose proof (lookup_lt_Some _ _ _ Hto) as Hlt.
    rewrite Hc, lookup_app_l by lia. by rewrite list_lookup_alter_eq, Hto. }
  split.
  { intros h t Hne Hh. pose proof (lookup_lt_Some _ _ _ Hh) as Hlt.
    rewrite Hc, lookup_app_l by lia. by rewrite list_lookup_alter_ne. }
  split; [done|].
  intros Hwf. split.
  - intros h t Hh Harmed.
    destruct (decide (h < length (clock e))) as [Hlt|Hge].
    + destruct (Hlow h t Hh Hlt) as [[_ Hfalse]|[Hne Hprev]]; [congruence|].
      destruct (Hwf h t Hprev Harmed) as (entry & Hentry & Htimer & Hmatch).
      exists entry. split; [|done]. rewrite Ht.
      destruct (decide (cl_name (fn t) = name)) as [Heq|Hneq].
      * rewrite Heq, Hold in Hentry. injection Hentry as <-. done.
      * by rewrite lookup_insert_ne.
    + assert (h = length (clock e)) as -> by (specialize (Hhigh h t Hh); lia).
      rewrite Hnew in Hh. injection Hh as <-.
      exists new. rewrite Ht. cbn [fn cl_name]. rewrite lookup_insert_eq. done.
  - intros h t Hh Harmed Hname.
    destruct (decide (h < length (clock e))) as [Hlt|Hge].
    + exfalso. destruct (Hlow h t Hh Hlt) as [[_ Hfalse]|[Hne Hprev]]; [congruence|].
      destruct (Hwf h t Hprev Harmed) as (entry & Hentry & Htimer & _).
      rewrite Hname, Hold in Hentry. injection Hentry as <-. done.
    + specialize (Hhigh h t Hh). lia.
Qed.

Lemma Send_room (ev : Event) (e : Env) :
  length (events e) < capacity e → events (Send ev e) = events e ++ [ev].
Proof. intros Hlt. unfold Send. by rewrite bool_decide_eq_true_2. Qed.

Lemma closure_eta (f : TimerClosure) :
  {| cl_name := cl_name f; cl_event := cl_event f; cl_scope := cl_scope f;
     cl_owner := cl_owner f |} = f.
Proof. by destruct f. Qed.

(** The restart performed when the action fails: the name is back in the
    table with the closure's event, scope and owner and the given duration
    and action, held by a new scheduled runtime timer running [f]. *)
Lemma restart_spec (f : TimerClosure) (dur : Z) (act : option StateID) (e : Env) :
  let e' := startTimerInternalWithAction (cl_name f) dur (cl_event f) (cl_scope f)
              (cl_owner f) act e in
  events e' = events e
  ∧ ∃ entry, timers e' !! cl_name f = Some entry
             ∧ closure_matches f entry ∧ duration entry = dur ∧ action entry = act
             ∧ clock e' !! timer entry = Some {| fn := f; armed := true; stops := 0 |}.
Proof.
  destruct (start_timer_spec (cl_name f) dur (cl_event f) (cl_scope f) (cl_owner f) act e)
    as (Ht & Hc & He & _).
  destruct (cancel_entry_spec (cl_name f) e) as (_ & _ & Hlen & _).
  cbv zeta. split; [done|]. eexists. rewrite Ht, lookup_insert_eq. split; [done|].
  split; [done|]. split; [done|]. split; [done|]. cbn [timer].
  rewrite Hc, lookup_app_r by lia. by rewrite Hlen, Nat.sub_diag, closure_eta.
Qed.

Lemma timer_fire_unfold (h : nat) (m : Machine) (t : goTimer) (entry : timerEntry) :
  clock (env m) !! h = Some t → armed t = true →
  timers (env m) !! cl_name (fn t) = Some entry →
  let f := fn t in
  let e1 := set_timers (env m) (delete (cl_name f) (timers (env m)))
              (alter (fun t => {| fn := fn t; armed := false; stops := stops t |}) h
                 (clock (env m))) in
  let c := {| FSM_currentState := currentState m; ctx_Event := None;
              FromState := ""; ToState := "" |} in
  let m1 := record (with_env m e1) [StepTimerRemoved (cl_name f)] in
  timer_fire h m =
    match timer_action (definition m) (action entry) with
    | Some act =>
        match (act c e1).2 with
        | Some _ =>
            record
              (with_env m1
                 (startTimerInternalWithAction (cl_name f) (duration entry) (cl_event f)
                    (cl_scope f) (cl_owner f) (action entry) (act c e1).1))
              [StepTimerAction (cl_name f) true; StepTimerRestart (cl_name f)]
        | None =>
            record (with_env m1 (Send (cl_event f) (act c e1).1))
              [StepTimerAction (cl_name f) false; StepSend (ID (cl_event f))]
        end
    | None => record (with_env m1 (Send (cl_event f) e1)) [StepSend (ID (cl_event f))]
    end.
Proof.
  intros Hh Harmed Hentry f e1 c m1. unfold timer_fire. rewrite Hh, Harmed.
  unfold timer_body. cbn [env with_env set_timers timers clock]. rewrite Hentry.
  cbn [definition record with_env].
  destruct (timer_action (definition m) (action entry)) as [act|]; [|reflexivity].
  change (act (makeContext _ None) _) with (act c e1).
  by destruct (act c e1) as [e [err|]].
Qed.

Lemma retry_step (name : string) (m : Machine) (entry : timerEntry) (t : goTimer)
    (act : Callback) :
  timers (env m) !! name = Some entry →
  clock (env m) !! timer entry = Some t → armed t = true → cl_name (fn t) = name →
  timer_action (definition m) (action entry) = Some act → always_fails act →
  let m' := fire_by_name name m in
  definition m' = definition m ∧ events (env m') = events (env m)
  ∧ ∃ entry', timers (env m') !! name = Some entry' ∧ action entry' = action entry
              ∧ clock (env m') !! timer entry'
                = Some {| fn := fn t; armed := true; stops := 0 |}.
Proof.
  intros Hentry Hclock Harmed Hname Hact Hfails. unfold fire_by_name. rewrite Hentry.
  rewrite <- Hname in Hentry.
  rewrite (timer_fire_unfold _ _ _ _ Hclock Harmed Hentry). cbv zeta. rewrite Hact.
  set (e1 := set_timers _ _ _).
  set (c := {| FSM_currentState := currentState m; ctx_Event := None;
               FromState := ""; ToState := "" |}).
  destruct (Hfails c e1) as [err ->]. cbn [fst snd].
  cbn [definition events env record with_env].
  destruct (restart_spec (fn t) (duration entry) (action entry) e1)
    as (He & entry' & Ht' & _ & _ & Ha' & Hc').
  split; [done|]. split; [by rewrite He|]. exists entry'. by rewrite <- Hname.
Qed.

(** C5.  When a scheduled timer fires and its name is in the table, the
    entry is removed first: the action, if any, runs on a table without it.
    If the action returns an error the timer is started again under the
    same name with the entry's duration and action and the closure's
    event, scope and owner (the entry's own parameters when the entry is
    the one this timer was started with), and the event is not queued.  If
    there is no action or it succeeds, the event is handed to [Send], which
    appends it to the queue when there is room.  A timer whose action
    always fails is therefore still active, with nothing queued, after any
    number of firings. *)
Theorem timer_fire_retry (h : nat) (m : Machine) (t : goTimer) (entry : timerEntry) :
  clock (env m) !! h = Some t → armed t = true →
  timers (env m) !! cl_name (fn t) = Some entry →
  let f := fn t in
  let name := cl_name f in
  let e1 := set_timers (env m) (delete name (timers (env m)))
              (alter (fun t => {| fn := fn t; armed := false; stops := stops t |}) h
                 (clock (env m))) in
  let c := {| FSM_currentState := currentState m; ctx_Event := None;
              FromState := ""; ToState := "" |} in
  let m' := timer_fire h m in
  timers e1 !! name = None
  ∧ (∃ rest, trace m' = trace m ++ StepTimerRemoved name :: rest)
  ∧ match timer_action (definition m) (action entry) with
    | Some act =>
        match (act c e1).2 with
        | Some _ =>
            env m' = startTimerInternalWithAction name (duration entry) (cl_event f)
                       (cl_scope f) (cl_owner f) (action entry) (act c e1).1
            ∧ events (env m') = events (act c e1).1
            ∧ trace m' = trace m ++ [StepTimerRemoved name; StepTimerAction name true;
                                     StepTimerRestart name]
            ∧ ∃ entry', timers (env m') !! name = Some entry'
                        ∧ closure_matches f entry'
                        ∧ duration entry' = duration entry ∧ action entry' = action entry
                        ∧ (closure_matches f entry → same_parameters entry' entry)
                        ∧ clock (env m') !! timer entry'
                          = Some {| fn := f; armed := true; stops := 0 |}
        | None =>
            env m' = Send (cl_event f) (act c e1).1
            ∧ trace m' = trace m ++ [StepTimerRemoved name; StepTimerAction name false;
                                     StepSend (ID (cl_event f))]
        end
    | None =>
        env m' = Send (cl_event f) e1
        ∧ trace m' = trace m ++ [StepTimerRemoved name; StepSend (ID (cl_event f))]
    end
  ∧ (∀ e, length (events e) < capacity e →
          events (Send (cl_event f) e) = events e ++ [cl_event f])
  ∧ (∀ act, timer entry = h →
       timer_action (definition m) (action entry) = Some act → always_fails act →
       ∀ n, events (env (Nat.iter n (fire_by_name name) m)) = events (env m)
            ∧ TimerActive name (env (Nat.iter n (fire_by_name name) m)) = true).
Proof.
  intros Hh Harmed Hentry f name e1 c m'.
  pose proof (timer_fire_unfold h m t entry Hh Harmed Hentry) as Hfire. cbv zeta in Hfire.
  fold f in Hfire. fold name in Hfire. fold e1 in Hfire. fold c in Hfire. fold m' in Hfire.
  split; [apply lookup_delete_eq|]. split; [|split; [|split]].
  - rewrite Hfire. destruct (timer_action (definition m) (action entry)) as [act|].
    + destruct (act c e1).2; cbn [trace record with_env]; rewrite <- app_assoc; by eexists.
    + cbn [trace record with_env]. rewrite <- app_assoc. by eexists.
  - rewrite Hfire. destruct (timer_action (definition m) (action entry)) as [act|].
    + destruct (act c e1).2 as [err|].
      * cbn [trace env record with_env]. rewrite <- app_assoc.
        destruct (restart_spec f (duration entry) (action entry) (act c e1).1)
          as (He & entry' & Ht' & Hm' & Hd' & Ha' & Hc').
        fold name in He, Ht'. split; [done|]. split; [done|]. split; [done|].
        exists entry'. split; [done|]. split; [done|]. split; [done|]. split; [done|].
        split; [|done]. intros (H1 & H2 & H3). destruct Hm' as (H1' & H2' & H3').
        unfold same_parameters. by rewrite H1', H2', H3', H1, H2, H3, Hd', Ha'.
      * cbn [trace env record with_env]. by rewrite <- app_assoc.
    + cbn [trace env record with_env]. by rewrite <- app_assoc.
  - intros e. apply Send_room.
  - intros act Hhandle Hact Hfails n.
    assert (Hinv : let mn := Nat.iter n (fire_by_name name) m in
              definition mn = definition m ∧ events (env mn) = events (env m)
              ∧ ∃ entry', timers (env mn) !! name = Some entry'
                          ∧ action entry' = action entry
                          ∧ ∃ t', clock (env mn) !! timer entry' = Some t'
                                  ∧ armed t' = true ∧ fn t' = f).
    { induction n as [|n IH].
      - simpl. repeat split; try done. exists entry. repeat split; try done.
        exists t. by rewrite Hhandle.
      - cbv zeta in IH. cbv zeta. rewrite !Nat.iter_succ.
        destruct IH as (Hd & He & entry' & Ht' & Ha' & t' & Hc' & Harm' & Hf').
        assert (cl_name (fn t') = name) as Hn' by by rewrite Hf'.
        rewrite <- Hd, <- Ha' in Hact.
        destruct (retry_step name _ entry' t' act Ht' Hc' Harm' Hn' Hact Hfails)
          as (Hd2 & He2 & entry2 & Ht2 & Ha2 & Hc2).
        cbv zeta. rewrite Hd2, He2. repeat split; try done.
        exists entry2. split; [done|]. split; [congruence|].
        eexists. split; [exact Hc2|]. done. }
    cbv zeta in Hinv. destruct Hinv as (_ & He & entry' & Ht' & _).
    split; [done|]. unfold TimerActive. rewrite Ht'. by apply bool_decide_eq_true_2.
Qed.

(** ** Validation and build *)

Lemma parent_iter_snoc (d : Definition_) (k : nat) (v c p : StateID) :
  parent_iter d k v = Some c → parent_of d c = Some p → parent_iter d (S k) v = Some p.
Proof.
  revert v. induction k as [|k IH]; intros v; simpl.
  - intros [= ->] ->. done.
  - destruct (parent_of d v) as [q|]; [|done]. intros H1 H2. exact (IH q H1 H2).
Qed.

Lemma parent_iter_add (d : Definition_) (a b : nat) (x : StateID) :
  parent_iter d (a + b) x
  = match parent_iter d a x with
    | Some y => parent_iter d b y
    | None => None
    end.
Proof.
  revert x. induction a as [|a IH]; intros x; simpl; [done|].
  destruct (parent_of d x) as [q|]; [apply IH|done].
Qed.

Lemma cycle_all_defined (d : Definition_) (id : StateID) (k : nat) :
  parent_iter d (S k) id = Some id → ∀ j, is_Some (parent_iter d j id).
Proof.
  intros Hcycle j.
  assert (Hrounds : ∀ n, parent_iter d (n * S k) id = Some id).
  { induction n as [|n IH]; [done|].
    replace (S n * S k) with (S k + n * S k) by lia.
    by rewrite parent_iter_add, Hcycle. }
  specialize (Hrounds j). replace (j * S k) with (j + j * k) in Hrounds by lia.
  rewrite parent_iter_add in Hrounds.
  destruct (parent_iter d j id); [by eexists|done].
Qed.

Lemma parent_of_Some (d : Definition_) (id : StateID) (state : State) :
  states d !! id = Some state → Parent state ≠ "" → parent_of d id = Some (Parent state).
Proof. intros Hst Hp. unfold parent_of. by rewrite Hst, bool_decide_eq_false_2. Qed.

Lemma parent_of_defined (d : Definition_) (id p : StateID) :
  parent_of d id = Some p → is_Some (states d !! id).
Proof. unfold parent_of. destruct (states d !! id); [by eexists|done]. Qed.

Lemma checkParentCycle_loop_detects (d : Definition_) (fuel : nat) (visited : gset StateID)
    (current : StateID) (e : error) :
  (∀ v, v ∈ visited → v ≠ "" ∧ ∃ k, parent_iter d (S k) v = Some current) →
  checkParentCycle_loop d fuel visited current = Some (Some e) → parent_cycle d.
Proof.
  revert visited current. induction fuel as [|fuel IH]; intros visited current Hinv; [done|].
  simpl. case_bool_decide as Hempty; [done|].
  case_bool_decide as Hseen.
  { intros _. destruct (Hinv current Hseen) as (Hne & k & Hk). by exists current, k. }
  destruct (states d !! current) as [state|] eqn:Hst; [|done].
  intros Hloop. destruct (decide (Parent state = "")) as [Hp|Hp].
  { rewrite Hp in Hloop. by destruct fuel. }
  pose proof (parent_of_Some d current state Hst Hp) as Hpar.
  refine (IH _ _ _ Hloop).
  intros v Hv. apply elem_of_union in Hv as [Hv|Hv].
  - apply elem_of_singleton in Hv as ->. split; [done|]. exists 0. simpl. by rewrite Hpar.
  - destruct (Hinv v Hv) as (Hne & k & Hk). split; [done|]. exists (S k).
    by apply (parent_iter_snoc d (S k) v current).
Qed.

(** The fuel of [checkParentCycle] never runs out. *)
Lemma checkParentCycle_loop_total (d : Definition_) (fuel : nat) (visited : gset StateID)
    (current : StateID) :
  visited ⊆ dom (states d) → (S (size (states d)) ≤ fuel + size visited)%nat →
  is_Some (checkParentCycle_loop d fuel visited current).
Proof.
  revert visited current. induction fuel as [|fuel IH]; intros visited current Hsub Hfuel.
  { apply subseteq_size in Hsub. rewrite size_dom in Hsub. simpl in Hfuel. lia. }
  simpl. case_bool_decide as Hempty; [by eexists|].
  case_bool_decide as Hseen; [by eexists|].
  destruct (states d !! current) as [state|] eqn:Hst; [|by eexists].
  apply IH.
  - apply union_subseteq. split; [|done]. apply singleton_subseteq_l, elem_of_dom. by eexists.
  - rewrite size_union by set_solver. rewrite size_singleton. lia.
Qed.

Lemma checkParentCycle_loop_not_ok (d : Definition_) (fuel : nat) (visited : gset StateID)
    (current : StateID) :
  current ≠ "" → (∀ j, is_Some (parent_iter d j current)) →
  checkParentCycle_loop d fuel visited current ≠ Some None.
Proof.
  revert visited current. induction fuel as [|fuel IH]; intros visited current Hne Hall; [done|].
  simpl. rewrite bool_decide_eq_false_2 by done.
  case_bool_decide as Hseen; [done|].
  pose proof (Hall 1) as [p Hp]. simpl in Hp. unfold parent_of in Hp.
  destruct (states d !! current) as [state|] eqn:Hst; [|done].
  case_bool_decide as Hparent; [done|].
  apply IH; [done|]. intros j. specialize (Hall (S j)). simpl in Hall.
  by rewrite (parent_of_Some d current state Hst Hparent) in Hall.
Qed.

Lemma checkParentCycle_Some (d : Definition_) (id : StateID) (e : error) :
  checkParentCycle d id = Some e → parent_cycle d.
Proof.
  unfold checkParentCycle.
  destruct (checkParentCycle_loop d (S (size (states d))) ∅ id) as [[e'|]|] eqn:Hloop;
    [|done|done].
  intros _. eapply checkParentCycle_loop_detects; [|exact Hloop].
  intros v Hv. by apply not_elem_of_empty in Hv.
Qed.

Lemma checkParentCycle_cycle (d : Definition_) (id : StateID) (k : nat) :
  id ≠ "" → parent_iter d (S k) id = Some id → is_Some (checkParentCycle d id).
Proof.
  intros Hne Hcycle. unfold checkParentCycle.
  destruct (checkParentCycle_loop_total d (S (size (states d))) ∅ id) as [r Hr].
  { apply empty_subseteq. }
  { lia. }
  rewrite Hr. destruct r as [e|]; [by eexists|].
  exfalso. apply (checkParentCycle_loop_not_ok d (S (size (states d))) ∅ id Hne); [|done].
  by apply (cycle_all_defined d id k).
Qed.

Lemma check_references_Some (d : Definition_) (id : StateID) (state : State) (e : error) :
  states d !! id = Some state → check_references d (id, state) = Some e →
  dangling_parent d ∨ dangling_default_child d.
Proof.
  intros Hst. unfold check_references.
  destruct (bool_decide (Parent state ≠ "") && negb (defined d (Parent state))) eqn:H1.
  { intros _. left. apply andb_true_iff in H1 as [Hp Hd].
    apply bool_decide_eq_true in Hp. apply negb_true_iff, defined_false in Hd.
    by exists id, state. }
  destruct (bool_decide (DefaultChild state ≠ "") && negb (defined d (DefaultChild state)))
    eqn:H2; [|done].
  intros _. right. apply andb_true_iff in H2 as [Hp Hd].
  apply bool_decide_eq_true in Hp. apply negb_true_iff, defined_false in Hd.
  by exists id, state.
Qed.

Lemma check_references_None (d : Definition_) (id : StateID) (state : State) :
  check_references d (id, state) = None →
  (Parent state ≠ "" → is_Some (states d !! Parent state))
  ∧ (DefaultChild state ≠ "" → is_Some (states d !! DefaultChild state)).
Proof.
  unfold check_references.
  destruct (bool_decide (Parent state ≠ "") && negb (defined d (Parent state))) eqn:H1; [done|].
  destruct (bool_decide (DefaultChild state ≠ "") && negb (defined d (DefaultChild state)))
    eqn:H2; [done|].
  intros _. apply andb_false_iff in H1, H2. split; intros Hne.
  - destruct H1 as [H1|H1]; [by apply bool_decide_eq_false in H1|].
    by apply negb_false_iff, defined_true in H1.
  - destruct H2 as [H2|H2]; [by apply bool_decide_eq_false in H2|].
    by apply negb_false_iff, defined_true in H2.
Qed.

Lemma check_transition_Some (d : Definition_) (t : Transition) (e : error) :
  check_transition d t = Some e →
  (From t ≠ WildcardState ∧ states d !! From t = None) ∨ states d !! To t = None.
Proof.
  unfold check_transition.
  destruct (bool_decide (From t ≠ WildcardState) && negb (defined d (From t))) eqn:H1.
  { intros _. left. apply andb_true_iff in H1 as [Hp Hd].
    apply bool_decide_eq_true in Hp. by apply negb_true_iff, defined_false in Hd. }
  destruct (negb (defined d (To t))) eqn:H2; [|done].
  intros _. right. by apply negb_true_iff, defined_false in H2.
Qed.

Lemma check_transition_None (d : Definition_) (t : Transition) :
  check_transition d t = None →
  (From t ≠ WildcardState → is_Some (states d !! From t)) ∧ is_Some (states d !! To t).
Proof.
  unfold check_transition.
  destruct (bool_decide (From t ≠ WildcardState) && negb (defined d (From t))) eqn:H1; [done|].
  destruct (negb (defined d (To t))) eqn:H2; [done|].
  intros _. apply andb_false_iff in H1. split.
  - intros Hne. destruct H1 as [H1|H1]; [by apply bool_decide_eq_false in H1|].
    by apply negb_false_iff, defined_true in H1.
  - by apply negb_false_iff, defined_true in H2.
Qed.

Lemma check_condition_Some (id : StateID) (state : State) (e : error) :
  check_condition (id, state) = Some e →
  (Type_ state = StateCondition ∨ Type_ state = StateJunction) ∧ Condition state = None.
Proof.
  unfold check_condition.
  destruct (is_pseudo (Type_ state) && negb (bool_decide (is_Some (Condition state)))) eqn:H1;
    [|done].
  intros _. apply andb_true_iff in H1 as [Hp Hc]. apply is_pseudo_true in Hp.
  split; [done|]. apply negb_true_iff, bool_decide_eq_false in Hc.
  by apply eq_None_not_Some.
Qed.

Lemma check_condition_None (id : StateID) (state : State) :
  check_condition (id, state) = None →
  Type_ state = StateCondition ∨ Type_ state = StateJunction → is_Some (Condition state).
Proof.
  unfold check_condition. intros H Hp. apply is_pseudo_true in Hp. rewrite Hp in H.
  simpl in H. destruct (bool_decide (is_Some (Condition state))) eqn:Hc; [|done].
  by apply bool_decide_eq_true in Hc.
Qed.

Lemma Validate_Some_defect (d : Definition_) (e : error) :
  Validate d = Some e →
  no_initial d ∨ dangling_parent d ∨ dangling_default_child d ∨ dangling_transition d
  ∨ missing_condition d ∨ parent_cycle d.
Proof.
  unfold Validate. case_bool_decide as Hi.
  { intros _. left. by left. }
  destruct (defined d (initial d)) eqn:Hdef; cbn [negb].
  2: { intros _. left. right. by apply defined_false. }
  destruct (first_error (check_references d) _) eqn:H1.
  { intros _. apply first_error_Some in H1 as ([id state] & Hin & Hf).
    apply elem_of_map_to_list in Hin.
    destruct (check_references_Some d id state _ Hin Hf); [right; by left|].
    right; right; by left. }
  destruct (first_error (check_transition d) _) eqn:H2.
  { intros _. apply first_error_Some in H2 as (t & Hin & Hf).
    apply check_transition_Some in Hf. right; right; right; left. by exists t. }
  destruct (first_error check_condition _) eqn:H3.
  { intros _. apply first_error_Some in H3 as ([id state] & Hin & Hf).
    apply elem_of_map_to_list in Hin. apply check_condition_Some in Hf as [Hp Hc].
    right; right; right; right; left. by exists id, state. }
  intros H4. apply first_error_Some in H4 as ([id state] & Hin & Hf).
  apply checkParentCycle_Some in Hf. by repeat right.
Qed.

Lemma Validate_None_sound (d : Definition_) :
  Validate d = None →
  ¬ (no_initial d ∨ dangling_parent d ∨ dangling_default_child d ∨ dangling_transition d
     ∨ missing_condition d ∨ parent_cycle d).
Proof.
  intros Hv. apply Validate_None in Hv as (Hi & [s0 Hs0] & Hstates & Htrans).
  intros [[Hno|Hno]|[(id & state & Hst & Hp & Hnone)|[(id & state & Hst & Hp & Hnone)
         |[(t & Hin & Hbad)|[(id & state & Hst & Hp & Hnone)|(id & k & Hne & Hcycle)]]]]].
  - done.
  - congruence.
  - destruct (Hstates id state Hst) as (Href & _).
    apply check_references_None in Href as [Href _]. destruct (Href Hp). congruence.
  - destruct (Hstates id state Hst) as (Href & _).
    apply check_references_None in Href as [_ Href]. destruct (Href Hp). congruence.
  - pose proof (check_transition_None d t (Htrans t Hin)) as [Hfrom [? Hto]].
    destruct Hbad as [[Hw Hnone]|Hnone]; [|congruence].
    destruct (Hfrom Hw). congruence.
  - destruct (Hstates id state Hst) as (_ & Hcond & _).
    destruct (check_condition_None id state Hcond Hp). congruence.
  - assert (is_Some (states d !! id)) as [state Hst].
    { cbn [parent_iter] in Hcycle. destruct (parent_of d id) as [p|] eqn:Hpar; [|done].
      by apply parent_of_defined in Hpar. }
    destruct (Hstates id state Hst) as (_ & _ & Hcheck).
    destruct (checkParentCycle_cycle d id k Hne Hcycle). congruence.
Qed.

Lemma add_timeout_transitions_error (d : Definition_) (l : list (StateID * State))
    (acc : list Transition) :
  is_Some (add_timeout_transitions d l acc).2 ↔
  ∃ id state, (id, state) ∈ l ∧ TimeoutTarget state ≠ ""
              ∧ states d !! TimeoutTarget state = None.
Proof.
  revert acc. induction l as [|[id state] l IH]; intros acc; simpl.
  { split; [by intros [? ?]|]. intros (? & ? & Hin & _). by apply elem_of_nil in Hin. }
  case_bool_decide as Htarget.
  - destruct (defined d (TimeoutTarget state)) eqn:Hdef.
    + rewrite IH. split.
      * intros (id' & state' & Hin & H). exists id', state'. split; [by right|done].
      * intros (id' & state' & Hin & Hne & Hnone). exists id', state'.
        apply elem_of_cons in Hin as [[= -> ->]|Hin]; [|done].
        apply defined_true in Hdef as [? ?]. congruence.
    + simpl. split; [|by eexists]. intros _. exists id, state.
      split; [by left|]. split; [done|]. by apply defined_false.
  - rewrite IH. split.
    + intros (id' & state' & Hin & H). exists id', state'. split; [by right|done].
    + intros (id' & state' & Hin & Hne & Hnone). exists id', state'.
      apply elem_of_cons in Hin as [[= -> ->]|Hin]; done.
Qed.

(** C8.  Building a definition fails with an error exactly when one of
    the listed defects is present: no initial state or an undefined one, a
    parent or default-child reference to an undefined state, a transition
    whose non-wildcard source or whose target is undefined, a Condition or
    Junction state without a resolution function, a cycle in the parent
    chain, or a declarative-timeout target that is undefined.  The result
    is then the error alone; a machine is returned exactly when there is
    no defect. *)
Theorem Build_fails_iff (default_data : Data) (d : Definition_) (opts : list MachineOption) :
  ((∃ e, (Build default_data d opts).2 = inl e) ↔ defective d)
  ∧ ((∃ m, (Build default_data d opts).2 = inr m) ↔ ¬ defective d).
Proof.
  assert (Hfail : (∃ e, (Build default_data d opts).2 = inl e) ↔ defective d).
  { unfold Build, defective. destruct (Validate d) as [e|] eqn:Hv.
    - split; [|by eexists]. intros _. apply Validate_Some_defect in Hv. tauto.
    - pose proof (Validate_None_sound d Hv) as Hsound.
      pose proof (add_timeout_transitions_error d (map_to_list (states d)) (transitions d))
        as Hadd.
      destruct (add_timeout_transitions d (map_to_list (states d)) (transitions d))
        as [ts [e|]]; simpl in *.
      + split; [|by eexists]. intros _. repeat right.
        destruct Hadd as [Hadd _]. destruct Hadd as (id & state & Hin & H); [by eexists|].
        apply elem_of_map_to_list in Hin. by exists id, state.
      + split; [by intros [? ?]|]. intros Hdefect. exfalso.
        assert (dangling_timeout_target d) as (id & state & Hst & H) by tauto.
        destruct Hadd as [_ Hadd]. destruct Hadd as [? ?]; [|done].
        exists id, state. split; [|done]. by apply elem_of_map_to_list. }
  split; [done|]. rewrite <- Hfail. split.
  - intros [m Hm] [e He]. congruence.
  - intros Hno. destruct (Build default_data d opts).2 as [e|m]; [|by eexists].
    exfalso. apply Hno. by eexists.
Qed.

(** ** Event dispatch *)

Lemma findAllTransitions_loop_climb (d : Definition_) (fuel : nat) (ev : EventID)
    (current : StateID) (found : list Transition) :
  findAllTransitions_loop d fuel ev current found
  = (fun chain =>
       found ++ flat_map (fun s => List.filter (matches ev s) (transitions d)) chain)
    <$> climb d fuel "" current.
Proof.
  revert current found. induction fuel as [|fuel IH]; intros current found; simpl; [done|].
  rewrite orb_diag. case_bool_decide as Hcur.
  { simpl. by rewrite app_nil_r. }
  destruct (states d !! current) as [state|].
  - rewrite IH. destruct (climb d fuel "" (Parent state)) as [chain|]; simpl; [|done].
    by rewrite <- app_assoc.
  - simpl. by rewrite app_nil_r.
Qed.

(** In a hierarchy without a parent cycle the climbing loops end within
    [chain_fuel] iterations. *)
Lemma climb_total (d : Definition_) (fuel : nat) (stop current : StateID)
    (visited : gset StateID) :
  ¬ parent_cycle d → visited ⊆ dom (states d) →
  (∀ v, v ∈ visited → v ≠ "" ∧ ∃ k, parent_iter d (S k) v = Some current) →
  (S (size (states d)) ≤ fuel + size visited)%nat →
  is_Some (climb d fuel stop current).
Proof.
  intros Hacyclic. revert current visited.
  induction fuel as [|fuel IH]; intros current visited Hsub Hinv Hfuel.
  { apply subseteq_size in Hsub. rewrite size_dom in Hsub. simpl in Hfuel. lia. }
  simpl. destruct (bool_decide (current = "") || bool_decide (current = stop)) eqn:Hstop;
    [by eexists|].
  apply orb_false_iff in Hstop as [Hne _]. apply bool_decide_eq_false in Hne.
  destruct (states d !! current) as [state|] eqn:Hst; [|by eexists].
  apply fmap_is_Some.
  assert (current ∉ visited) as Hfresh.
  { intros Hin. apply Hacyclic. destruct (Hinv current Hin) as (_ & k & Hk).
    by exists current, k. }
  assert (size ({[current]} ∪ visited) = S (size visited)) as Hsize.
  { rewrite size_union by set_solver. by rewrite size_singleton. }
  assert ({[current]} ∪ visited ⊆ dom (states d)) as Hsub'.
  { apply union_subseteq. split; [|done]. apply singleton_subseteq_l, elem_of_dom.
    by eexists. }
  destruct (decide (Parent state = "")) as [Hp|Hp].
  - rewrite Hp. destruct fuel as [|fuel].
    + apply subseteq_size in Hsub'. rewrite size_dom in Hsub'. lia.
    + simpl. by eexists.
  - pose proof (parent_of_Some d current state Hst Hp) as Hpar.
    apply (IH _ ({[current]} ∪ visited)); [done| |lia].
    intros v Hv. apply elem_of_union in Hv as [Hv|Hv].
    + apply elem_of_singleton in Hv as ->. split; [done|]. exists 0. simpl. by rewrite Hpar.
    + destruct (Hinv v Hv) as (Hne' & k & Hk). split; [done|]. exists (S k).
      by apply (parent_iter_snoc d (S k) v current).
Qed.

Lemma climb_valid (d : Definition_) (stop current : StateID) :
  Validate d = None → is_Some (climb d (chain_fuel d) stop current).
Proof.
  intros Hv. apply (climb_total d _ stop current ∅).
  - intros Hcycle. apply (Validate_None_sound d Hv). tauto.
  - apply empty_subseteq.
  - intros v Hin. by apply not_elem_of_empty in Hin.
  - unfold chain_fuel. lia.
Qed.

Lemma try_transitions_spec (fuel : nat) (c : Context) (ev : Event) (ts : list Transition)
    (m : Machine) :
  (∃ pre t post e1 m1,
      ts = pre ++ t :: post
      ∧ run_rejected c pre (env m) = Some e1
      ∧ chosen c t e1 = Some (env m1)
      ∧ currentState m1 = currentState m ∧ definition m1 = definition m
      ∧ stateChangeCallback m1 = stateChangeCallback m
      ∧ try_transitions fuel c ev ts m = executeTransition fuel t ev m1)
  ∨ (∃ m1,
      run_rejected c ts (env m) = Some (env m1)
      ∧ currentState m1 = currentState m ∧ definition m1 = definition m
      ∧ try_transitions fuel c ev ts m = Some (m1, None)).
Proof.
  revert m. induction ts as [|t ts IH]; intros m.
  { right. by exists m. }
  cbn [try_transitions]. destruct (Guard t) as [g|] eqn:Hg.
  2: { left. exists [], t, ts, (env m), m. unfold chosen. by rewrite Hg. }
  destruct (g c (env m)) as [e passed] eqn:Hrun.
  set (m' := record (with_env m e) [StepGuard (From t) (To t) passed]).
  destruct passed.
  { left. exists [], t, ts, (env m), m'. unfold chosen. by rewrite Hg, Hrun. }
  destruct (IH m') as [(pre & t' & post & e1 & m1 & -> & Hrej & Hch & Hc & Hd & Hs & Htry)
                      |(m1 & Hrej & Hc & Hd & Htry)].
  - left. exists (t :: pre), t', post, e1, m1. cbn [run_rejected]. by rewrite Hg, Hrun.
  - right. exists m1. cbn [run_rejected]. by rewrite Hg, Hrun.
Qed.

(** C1.  For a machine on a well-formed graph and any event, the
    candidates are the transitions declared on the current leaf, then those
    on each ancestor walking outward, then the wildcard-source transitions,
    each tier in declaration order.  The guards are run in that order with
    a context that shows the pre-transition leaf; the first candidate
    without a guard, or whose guard returns true, is the one executed (from
    a machine still on the pre-transition leaf).  If every candidate is
    rejected the event is dropped: no error, and the current leaf is
    unchanged. *)
Theorem event_selection (fuel : nat) (ev : Event) (m : Machine) :
  Validate (definition m) = None →
  let d := definition m in
  let c := makeContext m (Some ev) in
  ∃ chain ts,
    climb d (chain_fuel d) "" (currentState m) = Some chain
    ∧ ts = flat_map (fun s => List.filter (matches (ID ev) s) (transitions d)) chain
           ++ List.filter (matches (ID ev) WildcardState) (transitions d)
    ∧ findAllTransitions m ev = Some ts
    ∧ FSM_currentState c = currentState m
    ∧ ((∃ pre t post e1 m1,
           ts = pre ++ t :: post
           ∧ run_rejected c pre (env m) = Some e1
           ∧ chosen c t e1 = Some (env m1)
           ∧ currentState m1 = currentState m ∧ definition m1 = d
           ∧ processEvent fuel ev m = executeTransition fuel t ev m1)
       ∨ (∃ m1,
           run_rejected c ts (env m) = Some (env m1)
           ∧ currentState m1 = currentState m
           ∧ processEvent fuel ev m = Some (m1, None))).
Proof.
  intros Hvalid d c.
  destruct (climb_valid d "" (currentState m) Hvalid) as [chain Hclimb].
  exists chain. eexists. split; [done|]. split; [reflexivity|].
  assert (Hfind : findAllTransitions m ev
            = Some (flat_map (fun s => List.filter (matches (ID ev) s) (transitions d)) chain
                    ++ List.filter (matches (ID ev) WildcardState) (transitions d))).
  { unfold findAllTransitions. fold d. by rewrite findAllTransitions_loop_climb, Hclimb. }
  split; [done|]. split; [done|].
  unfold processEvent. rewrite Hfind. fold c.
  set (ts := flat_map _ chain ++ _).
  destruct (try_transitions_spec fuel c ev ts m)
    as [(pre & t & post & e1 & m1 & H1 & H2 & H3 & H4 & H5 & _ & H6)
       |(m1 & H1 & H2 & _ & H3)].
  - left. by exists pre, t, post, e1, m1.
  - right. by exists m1.
Qed.

(** ** Machines that [Build] returns *)

Lemma checkParentCycle_loop_states (d d' : Definition_) (fuel : nat)
    (visited : gset StateID) (current : StateID) :
  states d' = states d →
  checkParentCycle_loop d' fuel visited current = checkParentCycle_loop d fuel visited current.
Proof.
  intros Heq. revert visited current. induction fuel as [|fuel IH]; intros visited current;
    simpl; [done|].
  rewrite Heq. destruct (states d !! current); [|done]. by rewrite IH.
Qed.

Lemma add_timeout_transitions_ok (d : Definition_) (l : list (StateID * State))
    (acc ts : list Transition) :
  (∀ p, p ∈ l → is_Some (states d !! p.1)) →
  add_timeout_transitions d l acc = (ts, None) →
  ∀ t, t ∈ ts → t ∈ acc ∨ (is_Some (states d !! From t) ∧ is_Some (states d !! To t)).
Proof.
  revert acc. induction l as [|[id state] l IH]; intros acc Hl; simpl.
  { intros [= <-] t Ht. by left. }
  assert (Hl' : ∀ p, p ∈ l → is_Some (states d !! p.1)).
  { intros p Hp. apply Hl. by right. }
  case_bool_decide as Htarget.
  - destruct (defined d (TimeoutTarget state)) eqn:Hdef; [|done].
    intros Hadd t Ht. destruct (IH _ Hl' Hadd t Ht) as [Hin|Hok]; [|by right].
    apply elem_of_app in Hin as [Hin|Hin]; [by left|].
    apply list_elem_of_singleton in Hin as ->. right. simpl. split.
    + apply (Hl (id, state)). by left.
    + by apply defined_true.
  - intros Hadd. by apply (IH _ Hl' Hadd).
Qed.

Lemma apply_options_definition (opts : list MachineOption) (m : Machine) :
  definition (foldl apply_option m opts) = definition m.
Proof.
  revert m. induction opts as [|o opts IH]; intros m; simpl; [done|].
  rewrite IH. by destruct o.
Qed.

(** The graph of a machine that [Build] returns passes [Validate]: the
    transitions appended for timeout targets join declared states. *)
Lemma Build_valid (default_data : Data) (d : Definition_) (opts : list MachineOption)
    (m : Machine) :
  (Build default_data d opts).2 = inr m →
  Validate (definition m) = None ∧ states (definition m) = states d
  ∧ initial (definition m) = initial d.
Proof.
  unfold Build. destruct (Validate d) as [e|] eqn:Hv; [done|].
  destruct (add_timeout_transitions d (map_to_list (states d)) (transitions d))
    as [ts [e|]] eqn:Hadd; [done|].
  simpl. intros [= <-]. simpl. rewrite apply_options_definition. simpl.
  split; [|done].
  pose proof Hv as Hv'. apply Validate_None in Hv' as (Hi & Hinit & Hstates & Htrans).
  apply Validate_None. simpl. split; [done|]. split; [done|]. split.
  - intros id state Hst. destruct (Hstates id state Hst) as (H1 & H2 & H3).
    split; [exact H1|]. split; [exact H2|].
    transitivity (checkParentCycle d id); [|exact H3].
    unfold checkParentCycle. cbn [states]. f_equal.
    by apply checkParentCycle_loop_states.
  - intros t Ht.
    assert (Hdecl : ∀ p, p ∈ map_to_list (states d) → is_Some (states d !! p.1)).
    { intros [id state] Hp. apply elem_of_map_to_list in Hp. by eexists. }
    destruct (add_timeout_transitions_ok d _ _ _ Hdecl Hadd t Ht) as [Hin|[Hf Hto]].
    + exact (Htrans t Hin).
    + unfold check_transition, defined. simpl.
      rewrite (bool_decide_eq_true_2 _ Hf), (bool_decide_eq_true_2 _ Hto). simpl.
      by rewrite andb_false_r.
Qed.

(** ** Further properties of the timer subsystem *)

Lemma cancel_entry_lookup (name k : string) (e : Env) :
  timers (cancel_entry name e) !! k = if decide (name = k) then None else timers e !! k.
Proof.
  destruct (cancel_entry_spec name e) as (-> & _). apply lookup_delete.
Qed.

Lemma cancel_entry_absent (name : string) (e : Env) :
  timers e !! name = None → cancel_entry name e = e.
Proof. intros Hnone. unfold cancel_entry. by rewrite Hnone. Qed.

Lemma cancel_entry_data (name : string) (e : Env) : data (cancel_entry name e) = data e.
Proof. unfold cancel_entry. by destruct (timers e !! name). Qed.

(** X1.  [StopTimer] makes the name inactive and leaves every other
    entry, the queue and the data alone; on a name that is not in the table
    it changes nothing at all, so stopping twice is stopping once. *)
Theorem StopTimer_effect (name : string) (e : Env) :
  TimerActive name (StopTimer name e) = false
  ∧ (∀ other, other ≠ name → timers (StopTimer name e) !! other = timers e !! other)
  ∧ events (StopTimer name e) = events e ∧ data (StopTimer name e) = data e
  ∧ (timers e !! name = None → StopTimer name e = e)
  ∧ StopTimer name (StopTimer name e) = StopTimer name e.
Proof.
  unfold StopTimer, TimerActive.
  assert (Hgone : timers (cancel_entry name e) !! name = None).
  { rewrite cancel_entry_lookup. by rewrite decide_True. }
  split.
  { rewrite Hgone. apply bool_decide_eq_false_2. by intros [? ?]. }
  split.
  { intros other Hne. rewrite cancel_entry_lookup. by rewrite decide_False. }
  destruct (cancel_entry_spec name e) as (_ & _ & _ & He & _).
  split; [done|]. split; [apply cancel_entry_data|]. split; [apply cancel_entry_absent|].
  by apply cancel_entry_absent.
Qed.

Lemma foldr_stop_armed (l : list (string * timerEntry)) (c : list goTimer) (h : nat)
    (t' : goTimer) :
  foldr (fun p c => timer_Stop (timer p.2) c) c l !! h = Some t' → armed t' = true →
  c !! h = Some t' ∧ ∀ p, p ∈ l → timer p.2 ≠ h.
Proof.
  revert t'. induction l as [|p l IH]; intros t'; simpl.
  { intros Hh _. split; [done|]. intros p Hp. by apply elem_of_nil in Hp. }
  unfold timer_Stop at 1. intros Hh Harmed.
  destruct (decide (timer p.2 = h)) as [Heq|Hne].
  - rewrite Heq, list_lookup_alter_eq in Hh.
    destruct (foldr _ c l !! h); simpl in Hh; [|done]. injection Hh as <-. done.
  - rewrite list_lookup_alter_ne in Hh by done.
    destruct (IH t' Hh Harmed) as [Hc Hall]. split; [done|].
    intros q Hq. apply elem_of_cons in Hq as [->|Hq]; [done|]. by apply Hall.
Qed.

(** X2.  [StopAllTimers] empties the table and keeps the queue; in a
    well-formed timer state no runtime timer stays scheduled, so no timer
    fires after [Stop]. *)
Theorem StopAllTimers_silences (m : Machine) :
  timers_wf (env m) →
  timers (env (Stop m)) = ∅
  ∧ events (env (Stop m)) = events (env m)
  ∧ (∀ h t, clock (env (Stop m)) !! h = Some t → armed t = false)
  ∧ (∀ h, timer_fire h (Stop m) = Stop m).
Proof.
  intros Hwf.
  assert (Hoff : ∀ h t, clock (env (Stop m)) !! h = Some t → armed t = false).
  { intros h t Hh. destruct (armed t) eqn:Harmed; [|done]. exfalso.
    simpl in Hh. destruct (foldr_stop_armed _ _ _ _ Hh Harmed) as [Hc Hall].
    destruct (Hwf h t Hc Harmed) as (entry & Hentry & Htimer & _).
    apply (Hall (cl_name (fn t), entry)); [|done]. by apply elem_of_map_to_list. }
  split; [done|]. split; [done|]. split; [exact Hoff|].
  intros h. unfold timer_fire. destruct (clock (env (Stop m)) !! h) as [t|] eqn:Hh; [|done].
  by rewrite (Hoff h t Hh).
Qed.

(** X3.  [resetTimer] does nothing for a name that is not in the table.
    For a running timer it stops the runtime timer and starts a new one
    that keeps the entry's event, scope and owner, takes the new duration,
    and carries no action: the retry action of the old entry is dropped. *)
Theorem resetTimer_effect (name : string) (dur : Z) (e : Env) :
  (timers e !! name = None → resetTimer name dur e = e)
  ∧ (∀ entry, timers e !! name = Some entry →
       timers (resetTimer name dur e) !! name
       = Some {| timer := length (clock e); event := event entry; scope := scope entry;
                 ownerState := ownerState entry; duration := dur; action := None |}
       ∧ (∀ other, other ≠ name →
            timers (resetTimer name dur e) !! other = timers e !! other)
       ∧ (∀ t, clock e !! timer entry = Some t →
            clock (resetTimer name dur e) !! timer entry
            = Some {| fn := fn t; armed := false; stops := S (stops t) |})
       ∧ events (resetTimer name dur e) = events e).
Proof.
  split.
  { intros Hnone. unfold resetTimer. by rewrite Hnone. }
  intros entry Hentry. unfold resetTimer, startTimerInternal. rewrite Hentry.
  destruct (start_timer_spec name dur (event entry) (scope entry) (ownerState entry) None
              (cancel_entry name e)) as (Ht & Hc & He & _).
  destruct (cancel_entry_spec name e) as (Ht1 & Hc1 & Hlen & He1 & _).
  rewrite Hentry in Hc1.
  assert (Hidem : cancel_entry name (cancel_entry name e) = cancel_entry name e).
  { apply cancel_entry_absent. rewrite cancel_entry_lookup. by rewrite decide_True. }
  rewrite Hidem in Hc. rewrite Ht, Hc, He, He1, Hlen.
  split; [by rewrite lookup_insert_eq|]. split.
  { intros other Hne. rewrite lookup_insert_ne by done. rewrite cancel_entry_lookup.
    by rewrite decide_False. }
  split; [|done].
  intros t Hto. pose proof (lookup_lt_Some _ _ _ Hto) as Hlt.
  rewrite Hc1. unfold timer_Stop. rewrite lookup_app_l by (by rewrite length_alter).
  by rewrite list_lookup_alter_eq, Hto.
Qed.

Lemma cleanup_foldr_lookup (stateID : StateID) (l : list (string * timerEntry)) (e : Env) :
  (∀ n en, (n, en) ∈ l → timers e !! n = Some en) →
  let e' := foldr (fun p e' => if owned_by stateID p.2 then cancel_entry p.1 e' else e')
              e l in
  (∀ k en, timers e' !! k = Some en ↔
           timers e !! k = Some en ∧ ¬ ((k, en) ∈ l ∧ owned_by stateID en = true))
  ∧ events e' = events e ∧ data e' = data e ∧ capacity e' = capacity e.
Proof.
  induction l as [|[n en0] l IH]; intros Hl; simpl.
  { split; [|done]. intros k en. split; [|by intros [? _]].
    intros Hk. split; [done|]. intros [Hin _]. by apply elem_of_nil in Hin. }
  destruct IH as (IHt & IHe & IHd & IHc).
  { intros n' en' Hin. apply Hl. by right. }
  set (e'' := foldr _ e l) in *.
  destruct (owned_by stateID en0) eqn:Hown.
  - destruct (cancel_entry_spec n e'') as (_ & _ & _ & He & Hc).
    rewrite He, Hc, cancel_entry_data. split; [|done]. intros k en.
    rewrite cancel_entry_lookup. destruct (decide (n = k)) as [<-|Hne].
    + split; [done|]. intros [Hk Hnot]. exfalso. apply Hnot.
      rewrite (Hl n en0) in Hk by (by left). injection Hk as <-. split; [by left|done].
    + rewrite IHt. split; intros [Hk Hnot]; (split; [done|]); intros [Hin Ho]; apply Hnot.
      * apply elem_of_cons in Hin as [[= -> ->]|Hin]; done.
      * split; [by right|done].
  - split; [|done]. intros k en. rewrite IHt.
    split; intros [Hk Hnot]; (split; [done|]); intros [Hin Ho]; apply Hnot.
    + apply elem_of_cons in Hin as [[= -> ->]|Hin]; [congruence|done].
    + split; [by right|done].
Qed.

Lemma cleanup_lookup (stateID : StateID) (e : Env) (k : string) (en : timerEntry) :
  timers (cleanupTimersForState stateID e) !! k = Some en ↔
  timers e !! k = Some en ∧ owned_by stateID en = false.
Proof.
  destruct (cleanup_foldr_lookup stateID (map_to_list (timers e)) e) as (Ht & _).
  { intros n en' Hin. by apply elem_of_map_to_list. }
  unfold cleanupTimersForState. rewrite Ht.
  split; intros [Hk Hnot]; (split; [done|]).
  - destruct (owned_by stateID en) eqn:Ho; [|done]. exfalso. apply Hnot.
    split; [|done]. by apply elem_of_map_to_list.
  - intros [_ Ho]. congruence.
Qed.

Lemma cleanup_events (stateID : StateID) (e : Env) :
  events (cleanupTimersForState stateID e) = events e
  ∧ data (cleanupTimersForState stateID e) = data e.
Proof.
  destruct (cleanup_foldr_lookup stateID (map_to_list (timers e)) e) as (_ & He & Hd & _).
  { intros n en' Hin. by apply elem_of_map_to_list. }
  done.
Qed.

(** X4.  [cleanupTimersForState] removes exactly the State-scoped timers
    owned by the state: an entry is in the table afterwards iff it was
    there before and is not such a timer.  Global timers and the timers of
    other states, the queue and the data are untouched. *)
Theorem cleanupTimersForState_effect (stateID : StateID) (e : Env) :
  (∀ k en, timers (cleanupTimersForState stateID e) !! k = Some en ↔
           timers e !! k = Some en
           ∧ ¬ (scope en = TimerScopeState ∧ ownerState en = stateID))
  ∧ events (cleanupTimersForState stateID e) = events e
  ∧ data (cleanupTimersForState stateID e) = data e.
Proof.
  split; [|apply cleanup_events]. intros k en. rewrite cleanup_lookup.
  unfold owned_by. rewrite andb_false_iff, !bool_decide_eq_false.
  split; intros [Hk H]; (split; [done|]); [tauto|].
  destruct (decide (scope en = TimerScopeState)); [right|left]; tauto.
Qed.

(** X5.  A timer started through a callback's [Context] is State-scoped
    and owned by the current leaf, so cleaning up that state removes it; a
    timer started with [StartTimerGlobal] survives the cleanup of any
    state. *)
Theorem context_timers_scope (c : Context) (name : string) (dur : Z) (ev : Event)
    (stateID : StateID) (e : Env) :
  timers (cleanupTimersForState (FSM_currentState c) (Context_StartTimer c name dur ev e))
    !! name = None
  ∧ timers (cleanupTimersForState stateID (Context_StartTimerGlobal name dur ev e)) !! name
    = Some {| timer := length (clock e); event := ev; scope := TimerScopeGlobal;
              ownerState := ""; duration := dur; action := None |}.
Proof.
  split.
  - destruct (timers (cleanupTimersForState _ _) !! name) as [en|] eqn:Hk; [|done].
    exfalso. apply cleanup_lookup in Hk as [Hk Ho].
    unfold Context_StartTimer, startTimerInternal in Hk.
    destruct (start_timer_spec name dur ev TimerScopeState (FSM_currentState c) None e)
      as (Ht & _).
    rewrite Ht, lookup_insert_eq in Hk. injection Hk as <-.
    unfold owned_by in Ho. simpl in Ho. by rewrite !bool_decide_eq_true_2 in Ho.
  - apply cleanup_lookup.
    unfold Context_StartTimerGlobal, startTimerInternal.
    destruct (start_timer_spec name dur ev TimerScopeGlobal "" None e) as (Ht & _).
    rewrite Ht, lookup_insert_eq. split; [done|]. unfold owned_by. simpl. done.
Qed.

(** X6.  [Send] never lets the queue grow past its capacity: an event sent
    to a full queue is dropped and nothing changes; with room the event
    goes to the back, so two events sent in a row are queued in that
    order. *)
Theorem Send_bounded_fifo (ev1 ev2 : Event) (e : Env) :
  ((capacity e ≤ length (events e))%nat → Send ev1 e = e)
  ∧ ((length (events e) ≤ capacity e)%nat →
       (length (events (Send ev1 e)) ≤ capacity e)%nat)
  ∧ (S (length (events e)) < capacity e →
       events (Send ev2 (Send ev1 e)) = events e ++ [ev1; ev2])
  ∧ timers (Send ev1 e) = timers e ∧ capacity (Send ev1 e) = capacity e.
Proof.
  assert (Hcap : capacity (Send ev1 e) = capacity e) by (unfold Send; by case_bool_decide).
  split; [|split; [|split]].
  - intros Hfull. unfold Send. case_bool_decide; [lia|done].
  - intros Hle. unfold Send. case_bool_decide; simpl; [|done]. rewrite length_app. simpl. lia.
  - intros Hroom.
    assert (H1 : events (Send ev1 e) = events e ++ [ev1]) by (apply Send_room; lia).
    rewrite Send_room.
    + by rewrite H1, <- app_assoc.
    + rewrite H1, Hcap, length_app. simpl. lia.
  - split; [|done]. unfold Send. by case_bool_decide.
Qed.

Lemma timers_wf_cancel (name : string) (e : Env) :
  timers_wf e → timers_wf (cancel_entry name e).
Proof.
  intros Hwf. unfold cancel_entry. destruct (timers e !! name) as [old|] eqn:Hold; [|done].
  intros h t Hh Harmed. simpl in Hh. unfold timer_Stop in Hh.
  destruct (decide (timer old = h)) as [Heq|Hne].
  { rewrite Heq, list_lookup_alter_eq in Hh. destruct (clock e !! h); simpl in Hh; [|done].
    injection Hh as <-. done. }
  rewrite list_lookup_alter_ne in Hh by done.
  destruct (Hwf h t Hh Harmed) as (entry & Hentry & Htimer & Hmatch).
  exists entry. split; [|done]. simpl.
  rewrite lookup_delete_ne; [done|]. intros Heq. rewrite <- Heq, Hold in Hentry.
  injection Hentry as <-. done.
Qed.

Lemma timers_wf_start (name : string) (dur : Z) (ev : Event) (sc : TimerScope)
    (owner : StateID) (act : option StateID) (e : Env) :
  timers_wf e → timers_wf (startTimerInternalWithAction name dur ev sc owner act e).
Proof.
  intros Hwf. pose proof (timers_wf_cancel name e Hwf) as Hwf1.
  unfold startTimerInternalWithAction, time_AfterFunc.
  assert (Hgone : timers (cancel_entry name e) !! name = None).
  { rewrite cancel_entry_lookup. by rewrite decide_True. }
  set (e1 := cancel_entry name e) in *. intros h t Hh Harmed. simpl in Hh. simpl.
  destruct (decide (h < length (clock e1))) as [Hlt|Hge].
  - rewrite lookup_app_l in Hh by done.
    destruct (Hwf1 h t Hh Harmed) as (entry & Hentry & Htimer & Hmatch).
    exists entry. split; [|done]. rewrite lookup_insert_ne; [done|]. congruence.
  - rewrite lookup_app_r in Hh by lia.
    destruct (h - length (clock e1)) as [|k] eqn:Hk; simpl in Hh; [|done].
    injection Hh as <-. simpl. eexists. rewrite lookup_insert_eq. split; [done|].
    simpl. split; [lia|done].
Qed.

Lemma timers_wf_empty (dat : Data) : timers_wf (empty_env dat).
Proof. intros h t Hh. done. Qed.

(** X7.  The timer operations keep the timer state well-formed: after
    starting, stopping, resetting, cleaning up a state or stopping all
    timers, every scheduled runtime timer is still the one its name's
    table entry holds (so a name never has two scheduled timers), and
    sending an event does not disturb that. *)
Theorem timers_wf_preserved (e : Env) :
  timers_wf e →
  (∀ name dur ev sc owner act,
     timers_wf (startTimerInternalWithAction name dur ev sc owner act e))
  ∧ (∀ name, timers_wf (StopTimer name e))
  ∧ (∀ name dur, timers_wf (resetTimer name dur e))
  ∧ (∀ stateID, timers_wf (cleanupTimersForState stateID e))
  ∧ timers_wf (StopAllTimers e)
  ∧ (∀ ev, timers_wf (Send ev e)).
Proof.
  intros Hwf. split; [|split; [|split; [|split; [|split]]]].
  - intros. by apply timers_wf_start.
  - intros name. by apply timers_wf_cancel.
  - intros name dur. unfold resetTimer. destruct (timers e !! name); [|done].
    by apply timers_wf_start, timers_wf_cancel.
  - intros stateID. unfold cleanupTimersForState.
    induction (map_to_list (timers e)) as [|p l IH]; simpl; [done|].
    destruct (owned_by stateID p.2); [|done]. by apply timers_wf_cancel.
  - intros h t Hh Harmed. exfalso. simpl in Hh.
    destruct (foldr_stop_armed _ _ _ _ Hh Harmed) as [Hc Hall].
    destruct (Hwf h t Hc Harmed) as (entry & Hentry & Htimer & _).
    apply (Hall (cl_name (fn t), entry)); [|done]. by apply elem_of_map_to_list.
  - intros ev. unfold Send. by case_bool_decide.
Qed.

(** ** The hierarchy navigator *)

Lemma climb_shape (d : Definition_) (fuel : nat) (stop current : StateID)
    (chain : list StateID) :
  climb d fuel stop current = Some chain →
  (current = "" ∨ current = stop → chain = [])
  ∧ (current ≠ "" → current ≠ stop → ∃ rest, chain = current :: rest)
  ∧ ("" ∉ chain) ∧ (stop ∉ chain).
Proof.
  revert current chain. induction fuel as [|fuel IH]; intros current chain; simpl; [done|].
  destruct (bool_decide (current = "") || bool_decide (current = stop)) eqn:Hstop.
  { intros [= <-]. apply orb_true_iff in Hstop.
    rewrite !bool_decide_eq_true in Hstop. split; [done|]. split.
    - intros Hne1 Hne2. by destruct Hstop.
    - split; apply not_elem_of_nil. }
  apply orb_false_iff in Hstop as [Hne Hns].
  apply bool_decide_eq_false in Hne. apply bool_decide_eq_false in Hns.
  destruct (states d !! current) as [state|].
  - destruct (climb d fuel stop (Parent state)) as [chain'|] eqn:Hrec; simpl; [|done].
    intros [= <-]. destruct (IH _ _ Hrec) as (_ & _ & Hempty & Hstop').
    split; [by intros [?|?]|]. split; [by eexists|].
    split; rewrite not_elem_of_cons; naive_solver.
  - intros [= <-]. split; [by intros [?|?]|]. split; [by eexists|].
    split; rewrite not_elem_of_cons; split; try done; apply not_elem_of_nil.
Qed.

Lemma ancestors_loop_climb (d : Definition_) (fuel : nat) (current : StateID)
    (acc : gset StateID) :
  ancestors_loop d fuel current acc
  = (fun chain => list_to_set chain ∪ acc) <$> climb d fuel "" current.
Proof.
  revert current acc. induction fuel as [|fuel IH]; intros current acc; simpl; [done|].
  rewrite orb_diag. case_bool_decide as Hcur.
  { simpl. f_equal. set_solver. }
  destruct (states d !! current) as [state|].
  - rewrite IH. destruct (climb d fuel "" (Parent state)) as [chain|]; simpl; [|done].
    f_equal. set_solver.
  - simpl. f_equal. set_solver.
Qed.

Lemma first_in_ext (among among' : gset StateID) (chain : list StateID) :
  (∀ x, x ∈ chain → x ∈ among ↔ x ∈ among') → first_in among chain = first_in among' chain.
Proof.
  induction chain as [|x chain IH]; intros Hext; simpl; [done|].
  rewrite IH by (intros y Hy; apply Hext; by right).
  assert (x ∈ among ↔ x ∈ among') as Hx by (apply Hext; by left).
  repeat case_bool_decide; naive_solver.
Qed.

Lemma first_in_spec (among : gset StateID) (chain : list StateID) :
  (first_in among chain = "" ∧ ("" ∈ chain ∨ ∀ x, x ∈ chain → x ∉ among))
  ∨ ∃ pre post, chain = pre ++ first_in among chain :: post
                ∧ first_in among chain ∈ among ∧ ∀ x, x ∈ pre → x ∉ among.
Proof.
  induction chain as [|x chain IH]; simpl.
  { left. split; [done|]. right. intros x Hx. by apply elem_of_nil in Hx. }
  case_bool_decide as Hx.
  { right. exists [], chain. split; [done|]. split; [done|]. intros y Hy.
    by apply elem_of_nil in Hy. }
  destruct IH as [[Hroot Hnone]|(pre & post & Hsplit & Hin & Hpre)].
  - left. split; [done|]. destruct Hnone as [Hnone|Hnone]; [left; by right|].
    right. intros y Hy. apply elem_of_cons in Hy as [->|Hy]; [done|]. by apply Hnone.
  - right. exists (x :: pre), post. split; [simpl; by rewrite <- Hsplit|]. split; [done|].
    intros y Hy. apply elem_of_cons in Hy as [->|Hy]; [done|]. by apply Hpre.
Qed.

Lemma findLCA_walk_climb (d : Definition_) (fuel : nat) (among : gset StateID)
    (current : StateID) (chain : list StateID) :
  "" ∈ among → climb d fuel "" current = Some chain →
  findLCA_walk d fuel among current = Some (first_in among chain).
Proof.
  intros Hroot. revert current chain.
  induction fuel as [|fuel IH]; intros current chain; simpl; [done|].
  rewrite orb_diag. case_bool_decide as Hcur.
  { intros [= <-]. subst current. by rewrite bool_decide_eq_true_2. }
  destruct (states d !! current) as [state|].
  - destruct (climb d fuel "" (Parent state)) as [chain'|] eqn:Hrec; simpl; [|done].
    intros [= <-]. simpl. case_bool_decide; [done|]. by apply IH.
  - intros [= <-]. simpl. by case_bool_decide.
Qed.

(** X8.  On a well-formed graph [findLCA] always returns: the least common
    ancestor of [a] and [b] is the first state, climbing from [b] through
    its parents ([b] itself included), that lies on the climb from [a];
    it is the root (the empty id) when the two climbs share no state.  In
    particular the LCA of a state with itself is that state. *)
Theorem findLCA_first_common (d : Definition_) (a b : StateID) :
  Validate d = None →
  ∃ chainA chainB lca,
    climb d (chain_fuel d) "" a = Some chainA
    ∧ climb d (chain_fuel d) "" b = Some chainB
    ∧ findLCA d a b = Some lca
    ∧ lca = first_in (list_to_set chainA) chainB
    ∧ ((lca = "" ∧ ∀ x, x ∈ chainB → x ∉ chainA)
       ∨ (∃ pre post, chainB = pre ++ lca :: post ∧ lca ∈ chainA
                      ∧ ∀ x, x ∈ pre → x ∉ chainA))
    ∧ (a = b → lca = a).
Proof.
  intros Hv.
  destruct (climb_valid d "" a Hv) as [chainA HA].
  destruct (climb_valid d "" b Hv) as [chainB HB].
  exists chainA, chainB, (first_in (list_to_set chainA) chainB).
  destruct (climb_shape d _ "" a chainA HA) as (HemptyA & HheadA & HnoA & _).
  destruct (climb_shape d _ "" b chainB HB) as (_ & _ & HnoB & _).
  assert (Hself : a = b → first_in (list_to_set chainA) chainB = a).
  { intros <-. rewrite HA in HB. injection HB as <-.
    destruct (decide (a = "")) as [->|Hne].
    - by rewrite HemptyA by (by left).
    - destruct (HheadA Hne Hne) as [rest ->]. simpl.
      rewrite bool_decide_eq_true_2; [done|set_solver]. }
  split; [done|]. split; [done|]. split.
  { unfold findLCA. case_bool_decide as Hab; [by rewrite Hself|].
    rewrite ancestors_loop_climb, HA. cbn [fmap option_fmap option_map].
    rewrite (findLCA_walk_climb d _ _ b chainB) by (set_solver || done). f_equal.
    apply first_in_ext. intros x Hx. assert (x ≠ "") by (intros ->; done). set_solver. }
  split; [done|]. split; [|done].
  destruct (first_in_spec (list_to_set chainA) chainB)
    as [[Hroot [Hin|Hnone]]|(pre & post & Hsplit & Hin & Hpre)].
  - done.
  - left. split; [done|]. intros x Hx. specialize (Hnone x Hx). set_solver.
  - right. exists pre, post. split; [done|]. split; [set_solver|].
    intros x Hx. specialize (Hpre x Hx). set_solver.
Qed.

Lemma elem_of_rev_iff (x : StateID) (l : list StateID) : x ∈ rev l ↔ x ∈ l.
Proof. by rewrite !list_elem_of_In, <- in_rev. Qed.

Lemma pathFromAncestor_loop_climb (d : Definition_) (fuel : nat) (ancestor current : StateID)
    (path : list StateID) :
  pathFromAncestor_loop d fuel ancestor current path
  = (fun chain => rev chain ++ path) <$> climb d fuel ancestor current.
Proof.
  revert current path. induction fuel as [|fuel IH]; intros current path; simpl; [done|].
  destruct (bool_decide (current = "") || bool_decide (current = ancestor)); [done|].
  destruct (states d !! current) as [state|]; [|done].
  rewrite IH. destruct (climb d fuel ancestor (Parent state)) as [chain|]; simpl; [|done].
  by rewrite <- app_assoc.
Qed.

(** X9.  The path along which states are entered is the path along which
    they would be left, reversed: [pathFromAncestor target ancestor] lists,
    outermost first, exactly the states of the climb from [target] up to
    but excluding [ancestor]; neither the ancestor nor the empty id is on
    it, and the target comes last. *)
Theorem pathFromAncestor_reverses_climb (d : Definition_) (target ancestor : StateID) :
  pathFromAncestor d target ancestor
  = (fun chain => rev chain) <$> climb d (chain_fuel d) ancestor target
  ∧ ∀ path, pathFromAncestor d target ancestor = Some path →
      (ancestor ∉ path) ∧ ("" ∉ path)
      ∧ (target ≠ "" → target ≠ ancestor → last path = Some target)
      ∧ (target = ancestor → path = []).
Proof.
  assert (Heq : pathFromAncestor d target ancestor
                = (fun chain => rev chain) <$> climb d (chain_fuel d) ancestor target).
  { unfold pathFromAncestor. rewrite pathFromAncestor_loop_climb.
    destruct (climb d (chain_fuel d) ancestor target); simpl; [|done].
    by rewrite app_nil_r. }
  split; [done|]. intros path. rewrite Heq.
  destruct (climb d (chain_fuel d) ancestor target) as [chain|] eqn:Hclimb; simpl; [|done].
  intros [= <-]. destruct (climb_shape d _ _ _ _ Hclimb) as (Hnil & Hhead & Hno & Hstop).
  split; [by rewrite elem_of_rev_iff|]. split; [by rewrite elem_of_rev_iff|]. split.
  - intros Hne1 Hne2. destruct (Hhead Hne1 Hne2) as [rest ->]. simpl. by rewrite last_snoc.
  - intros Htarget. rewrite Hnil; [done|by right].
Qed.

Lemma isInState_loop_climb (d : Definition_) (fuel : nat) (id current : StateID)
    (chain : list StateID) :
  climb d fuel "" current = Some chain →
  isInState_loop d fuel id current = Some (bool_decide (id ∈ chain)).
Proof.
  revert current chain. induction fuel as [|fuel IH]; intros current chain; simpl; [done|].
  rewrite orb_diag. case_bool_decide as Hcur.
  { intros [= <-]. by rewrite bool_decide_eq_false_2 by apply not_elem_of_nil. }
  destruct (states d !! current) as [state|].
  - destruct (climb d fuel "" (Parent state)) as [chain'|] eqn:Hrec; simpl; [|done].
    intros [= <-]. case_bool_decide as Hid.
    + subst id. rewrite bool_decide_eq_true_2; [done|by left].
    + rewrite (IH _ _ Hrec). f_equal. apply bool_decide_ext.
      rewrite elem_of_cons. intuition congruence.
  - intros [= <-]. case_bool_decide as Hid.
    + subst id. rewrite bool_decide_eq_true_2; [done|by left].
    + rewrite bool_decide_eq_false_2; [done|]. rewrite elem_of_cons.
      intros [?|Hin]; [done|]. by apply elem_of_nil in Hin.
Qed.

(** X10.  On a well-formed graph [IsInState] answers true exactly for the
    current leaf and its ancestors; a started machine is always in its
    current leaf, and no machine is in the empty id. *)
Theorem IsInState_chain (m : Machine) (id : StateID) :
  Validate (definition m) = None →
  ∃ chain, climb (definition m) (chain_fuel (definition m)) "" (currentState m) = Some chain
           ∧ IsInState m id = Some (bool_decide (id ∈ chain))
           ∧ (currentState m ≠ "" → IsInState m (currentState m) = Some true)
           ∧ IsInState m "" = Some false.
Proof.
  intros Hv. destruct (climb_valid (definition m) "" (currentState m) Hv) as [chain Hclimb].
  exists chain. split; [done|]. unfold IsInState.
  rewrite !(isInState_loop_climb _ _ _ _ chain Hclimb).
  destruct (climb_shape _ _ _ _ _ Hclimb) as (_ & Hhead & Hno & _).
  split; [done|]. split.
  - intros Hne. destruct (Hhead Hne Hne) as [rest ->]. f_equal.
    apply bool_decide_eq_true_2. by left.
  - f_equal. by apply bool_decide_eq_false_2.
Qed.

Lemma computeDepth_loop_climb (d : Definition_) (fuel depth_ : nat) (current : StateID)
    (chain : list StateID) :
  climb d fuel "" current = Some chain →
  computeDepth_loop d fuel depth_ current = depth_ + pred (length chain).
Proof.
  revert depth_ current chain.
  induction fuel as [|fuel IH]; intros depth_ current chain; simpl; [done|].
  rewrite orb_diag. case_bool_decide as Hcur.
  { intros [= <-]. simpl. lia. }
  destruct (states d !! current) as [state|].
  - destruct (climb d fuel "" (Parent state)) as [chain'|] eqn:Hrec; simpl; [|done].
    intros [= <-]. destruct (climb_shape _ _ _ _ _ Hrec) as (Hnil & Hhead & _).
    case_bool_decide as Hparent.
    + rewrite Hnil by (by left). simpl. lia.
    + rewrite (IH _ _ _ Hrec). destruct (Hhead Hparent Hparent) as [rest ->]. simpl. lia.
  - intros [= <-]. simpl. lia.
Qed.

Lemma computeDepth_loop_states (d d' : Definition_) (fuel depth_ : nat) (current : StateID) :
  states d' = states d →
  computeDepth_loop d' fuel depth_ current = computeDepth_loop d fuel depth_ current.
Proof.
  intros Heq. revert depth_ current.
  induction fuel as [|fuel IH]; intros depth_ current; simpl; [done|].
  rewrite Heq. destruct (states d !! current); [|done]. by rewrite IH.
Qed.

Lemma build_depth_lookup (d : Definition_) (l : list (StateID * State))
    (acc : gmap StateID nat) (id : StateID) :
  foldl (fun dp p => <[p.1 := computeDepth d p.1]> dp) acc l !! id
  = if bool_decide (id ∈ l.*1) then Some (computeDepth d id) else acc !! id.
Proof.
  revert acc. induction l as [|p l IH]; intros acc; simpl; [done|].
  rewrite IH. case_bool_decide as Hin.
  - rewrite bool_decide_eq_true_2; [done|]. by right.
  - destruct (decide (p.1 = id)) as [<-|Hne].
    + rewrite lookup_insert_eq. rewrite bool_decide_eq_true_2; [done|]. by left.
    + rewrite lookup_insert_ne by done. rewrite bool_decide_eq_false_2; [done|].
      rewrite elem_of_cons. naive_solver.
Qed.

(** X11.  On a well-formed graph [computeDepth] of a state is the number
    of its proper ancestors (0 for a root state): one less than the length
    of the climb from the state to the root.  The depth table of a machine
    that [Build] returns holds that number for every declared state. *)
Theorem computeDepth_counts_ancestors (default_data : Data) (d : Definition_)
    (opts : list MachineOption) (m : Machine) (id : StateID) :
  (Build default_data d opts).2 = inr m → is_Some (states d !! id) →
  ∃ chain, climb d (chain_fuel d) "" id = Some chain
           ∧ (id ≠ "" → head chain = Some id)
           ∧ computeDepth d id = pred (length chain)
           ∧ depth m !! id = Some (pred (length chain)).
Proof.
  intros Hbuild Hdecl. pose proof Hbuild as Hb. unfold Build in Hb.
  destruct (Validate d) as [e|] eqn:Hv; [done|].
  destruct (add_timeout_transitions d (map_to_list (states d)) (transitions d))
    as [ts [e|]] eqn:Hadd; [done|].
  simpl in Hb. injection Hb as <-. simpl.
  destruct (climb_valid d "" id Hv) as [chain Hclimb].
  exists chain. split; [done|].
  destruct (climb_shape _ _ _ _ _ Hclimb) as (_ & Hhead & _). split.
  { intros Hne. by destruct (Hhead Hne Hne) as [rest ->]. }
  assert (Hdepth : computeDepth d id = pred (length chain)).
  { exact (computeDepth_loop_climb d _ 0 id _ Hclimb). }
  split; [done|]. unfold build_depth. rewrite build_depth_lookup. cbn [states].
  rewrite bool_decide_eq_true_2.
  - f_equal. rewrite <- Hdepth. unfold computeDepth. cbn [states].
    by apply computeDepth_loop_states.
  - destruct Hdecl as [state Hst]. apply list_elem_of_fmap. exists (id, state).
    split; [done|]. by apply elem_of_map_to_list.
Qed.

(** ** Further properties of the builder *)

Lemma add_timeout_transitions_result (d : Definition_) (l : list (StateID * State))
    (acc ts : list Transition) :
  add_timeout_transitions d l acc = (ts, None) →
  ts = acc ++ flat_map (fun p => if bool_decide (TimeoutTarget p.2 ≠ "")
                                 then [timeout_transition p.1 p.2] else []) l.
Proof.
  revert acc. induction l as [|[id state] l IH]; intros acc; simpl.
  { intros [= <-]. by rewrite app_nil_r. }
  case_bool_decide as Htarget.
  - destruct (defined d (TimeoutTarget state)); [|done].
    intros Hadd. rewrite (IH _ Hadd). by rewrite <- app_assoc.
  - apply IH.
Qed.

Lemma apply_options_fresh (opts : list MachineOption) (m : Machine) :
  currentState (foldl apply_option m opts) = currentState m
  ∧ timers (env (foldl apply_option m opts)) = timers (env m)
  ∧ clock (env (foldl apply_option m opts)) = clock (env m)
  ∧ (events (env m) = [] → events (env (foldl apply_option m opts)) = [])
  ∧ trace (foldl apply_option m opts) = trace m.
Proof.
  revert m. induction opts as [|o opts IH]; intros m; simpl; [done|].
  destruct (IH (apply_option m o)) as (Hc & Ht & Hk & He & Htr).
  rewrite Hc, Ht, Hk, Htr. destruct o; simpl; repeat split; try done.
  all: intros Hev; apply He; simpl; done.
Qed.

Lemma flat_map_filter_fmap {A B : Type} (P : A → Prop) `{!∀ x, Decision (P x)}
    (f : A → B) (l : list A) :
  flat_map (fun x => if bool_decide (P x) then [f x] else []) l = f <$> filter P l.
Proof.
  induction l as [|x l IH]; simpl; [done|].
  rewrite IH. case_bool_decide as HP.
  - by rewrite filter_cons_True.
  - by rewrite filter_cons_False.
Qed.

(** X12.  A machine that [Build] returns is unstarted (empty current leaf,
    no timers, empty queue, empty trace).  Its transitions are the declared
    ones, in declaration order, followed by the generated ones: the states
    with a timeout target, in the order the state table is walked, each
    give one transition from that state, on the state's timeout event, to
    the target, without guard or action.  No generated transition occurs
    twice, and nothing else is generated: there is exactly one for each
    state with a timeout target. *)
Theorem Build_transitions (default_data : Data) (d : Definition_)
    (opts : list MachineOption) (m : Machine) :
  (Build default_data d opts).2 = inr m →
  currentState m = "" ∧ timers (env m) = ∅ ∧ events (env m) = [] ∧ trace m = []
  ∧ ∃ added, transitions (definition m) = transitions d ++ added
             ∧ added = (fun p => timeout_transition p.1 p.2)
                       <$> filter (fun p => TimeoutTarget p.2 ≠ "") (map_to_list (states d))
             ∧ NoDup added
             ∧ ∀ t, t ∈ added ↔
                    ∃ id state, states d !! id = Some state ∧ TimeoutTarget state ≠ ""
                                ∧ t = timeout_transition id state.
Proof.
  unfold Build. destruct (Validate d) as [e|] eqn:Hv; [done|].
  destruct (add_timeout_transitions d (map_to_list (states d)) (transitions d))
    as [ts [e|]] eqn:Hadd; [done|].
  simpl. intros [= <-]. simpl.
  set (m0 := {| definition := _; currentState := ""; env := _; stateChangeCallback := None;
                children := ∅; depth := ∅; trace := [] |}).
  destruct (apply_options_fresh opts m0) as (Hc & Ht & _ & He & Htr).
  rewrite Hc, Ht, Htr, apply_options_definition. rewrite He by done.
  repeat split; try done.
  apply add_timeout_transitions_result in Hadd.
  rewrite (flat_map_filter_fmap (fun p : StateID * State => TimeoutTarget p.2 ≠ "")
             (fun p => timeout_transition p.1 p.2)) in Hadd.
  eexists. split; [exact Hadd|]. split; [reflexivity|]. split.
  - apply NoDup_fmap_2_strong.
    + intros [id1 st1] [id2 st2] H1 H2 Heq.
      apply list_elem_of_filter in H1 as [_ H1]. apply list_elem_of_filter in H2 as [_ H2].
      apply elem_of_map_to_list in H1. apply elem_of_map_to_list in H2.
      injection Heq as Hid _ _. simpl in Hid. subst id2. congruence.
    + apply NoDup_filter, NoDup_map_to_list.
  - intros t. rewrite list_elem_of_fmap. split.
    + intros ([id state] & -> & Hin). apply list_elem_of_filter in Hin as [Htarget Hin].
      apply elem_of_map_to_list in Hin. by exists id, state.
    + intros (id & state & Hst & Htarget & ->). exists (id, state). split; [done|].
      apply list_elem_of_filter. split; [done|]. by apply elem_of_map_to_list.
Qed.

Lemma all_guards_pass (guards : list GuardFn) (c : Context) (e : Env) :
  (all_guards guards c e).2 = true ↔ is_Some (guards_pass guards c e).
Proof.
  revert e. induction guards as [|g guards IH]; intros e; simpl.
  { split; [by eexists|done]. }
  destruct (g c e) as [e' passed] eqn:Hg. simpl. destruct passed; [apply IH|].
  simpl. split; [done|]. by intros [? ?].
Qed.

(** X13.  The guard installed by [WithGuards] passes exactly when every
    guard of the list passes, each run on what the one before left; it
    stops at the first guard that returns false, so the guards after it
    are not run.  With no guards it always passes.  The other fields of
    the transition are kept. *)
Theorem WithGuards_conjunction (guards : list GuardFn) (t : Transition) (c : Context)
    (e : Env) :
  Guard (WithGuards guards t) = Some (all_guards guards)
  ∧ From (WithGuards guards t) = From t ∧ Event_ (WithGuards guards t) = Event_ t
  ∧ To (WithGuards guards t) = To t ∧ Action (WithGuards guards t) = Action t
  ∧ ((all_guards guards c e).2 = true ↔ is_Some (guards_pass guards c e))
  ∧ (∀ pre g post e1, guards = pre ++ g :: post → guards_pass pre c e = Some e1 →
       (g c e1).2 = false → all_guards guards c e = ((g c e1).1, false))
  ∧ all_guards [] c e = (e, true).
Proof.
  repeat split; try done; try apply all_guards_pass.
  intros pre g post e1 -> Hpre Hfalse. revert e Hpre.
  induction pre as [|g0 pre IH]; intros e; simpl.
  - intros [= ->]. destruct (g c e1) as [e' passed]. simpl in *. by subst passed.
  - destruct (g0 c e) as [e' passed]. simpl. destruct passed; [apply IH|done].
Qed.

(** ** Further properties of the engine *)

Lemma filter_matches_nil (ev : EventID) (src : StateID) (ts : list Transition) :
  (∀ t, t ∈ ts → Event_ t = ev → From t ≠ src) → List.filter (matches ev src) ts = [].
Proof.
  induction ts as [|t ts IH]; intros Hall; simpl; [done|].
  rewrite IH by (intros t' Ht'; apply Hall; by right).
  unfold matches. case_bool_decide as Hev; simpl; [|done].
  rewrite bool_decide_eq_false_2; [done|]. apply Hall; [by left|done].
Qed.

(** X14.  On a well-formed graph an event for which no transition is
    declared on the wildcard, on the current leaf or on a state the
    machine is in (an ancestor) is ignored: [processEvent] returns nil and
    the machine is exactly as before. *)
Theorem processEvent_ignores_unhandled (fuel : nat) (ev : Event) (m : Machine) :
  Validate (definition m) = None →
  (∀ t, t ∈ transitions (definition m) → Event_ t = ID ev →
        From t ≠ WildcardState ∧ IsInState m (From t) = Some false) →
  processEvent fuel ev m = Some (m, None).
Proof.
  intros Hv Hnone.
  destruct (climb_valid (definition m) "" (currentState m) Hv) as [chain Hclimb].
  unfold processEvent, findAllTransitions.
  rewrite findAllTransitions_loop_climb, Hclimb. cbn [fmap option_fmap option_map].
  rewrite (filter_matches_nil _ WildcardState), app_nil_r
    by (intros t Ht Hev; by destruct (Hnone t Ht Hev)).
  assert (Hflat : flat_map (fun s => List.filter (matches (ID ev) s)
                                       (transitions (definition m))) chain = []).
  { assert (Hchain : ∀ s, s ∈ chain → IsInState m s = Some true).
    { intros s Hs. unfold IsInState.
      rewrite (isInState_loop_climb _ _ _ _ chain Hclimb).
      by rewrite bool_decide_eq_true_2. }
    clear Hclimb. induction chain as [|s chain IH]; simpl; [done|].
    rewrite IH by (intros s' Hs'; apply Hchain; by right). rewrite app_nil_r.
    apply filter_matches_nil. intros t Ht Hev Hfrom.
    destruct (Hnone t Ht Hev) as [_ Hout]. rewrite Hfrom, Hchain in Hout; [done|by left]. }
  by rewrite Hflat.
Qed.

(** X15.  A transition whose target is the current leaf itself leaves no
    state: no exit step is taken and no exit callback runs.  The transition
    action runs, and then the leaf is entered again (its entry steps run
    once more). *)
Theorem self_transition_reenters (fuel : nat) (t : Transition) (ev : Event)
    (m m' : Machine) (r : option error) :
  To t = currentState m →
  executeTransition fuel t ev m = Some (m', r) →
  ∃ rest,
    trace m' = trace m
               ++ match Action t with
                  | Some _ => [StepAction (currentState m) (currentState m)]
                  | None => []
                  end
               ++ rest
    ∧ (rest = [] ∨ head rest = Some (StepSetCurrent (currentState m)))
    ∧ (r = None → head rest = Some (StepSetCurrent (currentState m))).
Proof.
  intros Hself. unfold executeTransition. rewrite Hself. unfold findLCA.
  rewrite bool_decide_eq_true_2 by done.
  unfold exitToAncestor, chain_fuel. cbn [exitToAncestor_loop].
  rewrite (bool_decide_eq_true_2 (currentState m = currentState m)) by done.
  rewrite orb_true_r.
  set (c := with_states _ _ _).
  pose proof (run_callback_frame (Action t) c
                [StepAction (currentState m) (currentState m)] m) as (Hd & Hc & _ & Ht).
  destruct (run_callback (Action t) c _ m) as [m1 [err|]]; simpl in Hd, Hc, Ht.
  { intros [= <- <-]. exists []. rewrite app_nil_r. split; [done|]. split; [by left|done]. }
  unfold enterFromAncestor. rewrite bool_decide_eq_true_2 by done.
  destruct (enterState fuel (currentState m) (Some ev) (currentState m) m1)
    as [[m2 r2]|] eqn:Hent; [|done].
  pose proof (enterState_frame _ _ _ _ _ _ _ Hent) as (_ & _ & steps & Ht2 & Hhead).
  rewrite Hd in Hhead.
  assert (Hsteps : steps = [] ∨ head steps = Some (StepSetCurrent (currentState m))).
  { destruct (states (definition m) !! currentState m) as [state|] eqn:Hst.
    - right. apply Hhead. by eexists.
    - left. destruct fuel as [|fuel]; [done|]. simpl in Hent. rewrite Hd, Hst in Hent.
      injection Hent as <- _. rewrite <- (app_nil_r (trace m1)) in Ht2 at 1.
      by apply app_inv_head in Ht2. }
  assert (Hok : r2 = None → head steps = Some (StepSetCurrent (currentState m))).
  { intros ->. destruct (states (definition m) !! currentState m) as [state|] eqn:Hst.
    - apply Hhead. by eexists.
    - destruct fuel as [|fuel]; [done|]. simpl in Hent. by rewrite Hd, Hst in Hent. }
  destruct r2 as [err|].
  { intros [= <- <-]. exists steps. by rewrite Ht2, Ht, <- app_assoc. }
  case_bool_decide as Hmoved.
  - intros [= <- <-].
    pose proof (notify_frame (currentState m) (currentState m2) m2) as (_ & _ & Ht3).
    eexists. rewrite Ht3, Ht2, Ht, <- !app_assoc. split; [done|].
    specialize (Hok eq_refl). destruct steps as [|s0 steps]; [done|]. simpl. by split; [right|].
  - intros [= <- <-]. exists steps. rewrite Ht2, Ht, <- app_assoc. split; [done|].
    split; [done|]. intros _. by apply Hok.
Qed.

Lemma enterState_leaf (fuel : nat) (id : StateID) (ev : option Event) (from : StateID)
    (m m' : Machine) (r : option error) :
  enterState fuel id ev from m = Some (m', r) →
  currentState m' = currentState m ∨ is_Some (states (definition m) !! currentState m').
Proof.
  revert id from m. induction fuel as [|fuel IH]; intros id from m; [done|].
  destruct (states (definition m) !! id) as [state|] eqn:Hst.
  2: { simpl. rewrite Hst. intros [= <- <-]. by left. }
  rewrite (enterState_unfold fuel id ev from m state Hst). cbv zeta.
  set (m0 := start_timeout id state (record (with_current m id) [StepSetCurrent id])).
  pose proof (start_timeout_frame id state (record (with_current m id) [StepSetCurrent id]))
    as (Hd0 & Hc0 & _). fold m0 in Hd0, Hc0. simpl in Hd0, Hc0.
  set (c := with_states (makeContext m0 ev) from id).
  pose proof (run_callback_frame (OnEnter state) c [StepOnEnter id from] m0)
    as (Hd1 & Hc1 & _).
  set (entered := run_callback (OnEnter state) c [StepOnEnter id from] m0) in *.
  pose proof (resolve_frame id state ev entered.1) as (Hd2 & Hc2 & _).
  set (resolved := resolve id state ev entered.1) in *.
  pose proof (exitState_frame id resolved.1) as (Hd3 & Hc3 & _).
  set (left := exitState id resolved.1) in *.
  assert (Hhere : ∀ x, currentState x = id → is_Some (states (definition m) !! currentState x)).
  { intros x ->. by eexists. }
  assert (Hsub : ∀ x y, currentState x = id → definition x = definition m →
            currentState y = currentState x ∨ is_Some (states (definition x) !! currentState y) →
            is_Some (states (definition m) !! currentState y)).
  { intros x y Hx Hdx [->|Hy]; [by apply Hhere|by rewrite Hdx in Hy]. }
  destruct (entered.2).
  { intros [= <- <-]. right. apply Hhere. congruence. }
  case_bool_decide.
  - destruct (left.2).
    + intros [= <- <-]. right. apply Hhere. congruence.
    + intros Hrec. right. apply (Hsub left.1); [congruence|congruence|]. by eapply IH.
  - case_bool_decide.
    + intros Hrec. right. apply (Hsub resolved.1); [congruence|congruence|]. by eapply IH.
    + intros [= <- <-]. right. apply Hhere. congruence.
Qed.

Lemma enter_path_frame (fuel : nat) (path : list StateID) (ev : option Event)
    (prev : StateID) (m m' : Machine) (r : option error) :
  enter_path fuel path ev prev m = Some (m', r) →
  definition m' = definition m ∧ stateChangeCallback m' = stateChangeCallback m
  ∧ (currentState m' = currentState m ∨ is_Some (states (definition m) !! currentState m')).
Proof.
  revert prev m. induction path as [|id path IH]; intros prev m; simpl.
  { intros [= <- <-]. repeat split; try done. by left. }
  destruct (enterState fuel id ev prev m) as [[m1 [err|]]|] eqn:Hent; [| |done].
  - intros [= <- <-]. pose proof (enterState_frame _ _ _ _ _ _ _ Hent) as (Hd & Hs & _).
    repeat split; try done. by eapply enterState_leaf.
  - intros Hrec. pose proof (enterState_frame _ _ _ _ _ _ _ Hent) as (Hd & Hs & _).
    pose proof (enterState_leaf _ _ _ _ _ _ _ Hent) as Hleaf.
    destruct (IH _ _ Hrec) as (Hd' & Hs' & Hleaf').
    rewrite Hd', Hs', Hd, Hs. repeat split; try done.
    rewrite Hd in Hleaf'. destruct Hleaf' as [->|?]; [done|by right].
Qed.

Lemma executeTransition_frame (fuel : nat) (t : Transition) (ev : Event) (m m' : Machine)
    (r : option error) :
  executeTransition fuel t ev m = Some (m', r) →
  definition m' = definition m
  ∧ (currentState m' = currentState m ∨ is_Some (states (definition m) !! currentState m')).
Proof.
  unfold executeTransition.
  destruct (findLCA (definition m) (currentState m) (To t)) as [lca|]; [|done].
  destruct (exitToAncestor (currentState m) lca m) as [[m1 r1]|] eqn:Hexit; [|done].
  apply exitToAncestor_loop_spec in Hexit as (Hd1 & Hc1 & _).
  destruct r1 as [err|].
  { intros [= <- <-]. split; [done|]. by left. }
  set (c := with_states _ _ _).
  pose proof (run_callback_frame (Action t) c [StepAction (currentState m) (To t)] m1)
    as (Hd2 & Hc2 & _).
  destruct (run_callback (Action t) c _ m1) as [m2 [err|]]; simpl in Hd2, Hc2.
  { intros [= <- <-]. split; [congruence|]. left. congruence. }
  assert (Hent : ∀ m3 r3, enterFromAncestor fuel (To t) lca (Some ev) (currentState m) m2
                          = Some (m3, r3) →
            definition m3 = definition m
            ∧ (currentState m3 = currentState m
               ∨ is_Some (states (definition m) !! currentState m3))).
  { intros m3 r3. unfold enterFromAncestor. case_bool_decide.
    - intros Hent. pose proof (enterState_frame _ _ _ _ _ _ _ Hent) as (Hd & _).
      apply enterState_leaf in Hent. rewrite Hd2, Hd1 in Hent. split; [congruence|].
      destruct Hent as [->|?]; [left; congruence|by right].
    - destruct (pathFromAncestor (definition m2) (To t) lca); [|done].
      intros Hent. apply enter_path_frame in Hent as (Hd & _ & Hleaf).
      rewrite Hd2, Hd1 in Hleaf. split; [congruence|].
      destruct Hleaf as [->|?]; [left; congruence|by right]. }
  destruct (enterFromAncestor fuel (To t) lca (Some ev) (currentState m) m2)
    as [[m3 [err|]]|]; [| |done].
  - intros [= <- <-]. by apply (Hent m3 (Some err)).
  - destruct (Hent m3 None eq_refl) as [Hd3 Hleaf]. case_bool_decide.
    + intros [= <- <-].
      destruct (notify_frame (currentState m) (currentState m3) m3) as (Hd4 & Hc4 & _).
      by rewrite Hd4, Hc4.
    + by intros [= <- <-].
Qed.

(** X16.  The engine never changes the graph and keeps the current leaf
    on a declared state: if the leaf is empty (unstarted) or declared, it
    is still so after [Start], after processing any event and after a
    forced assignment, whether they succeed or fail. *)
Theorem engine_keeps_leaf_declared (fuel : nat) (m m' : Machine) (r : option error) :
  leaf_declared m →
  (Start fuel m = Some (m', r) → leaf_declared m' ∧ definition m' = definition m)
  ∧ (∀ ev, processEvent fuel ev m = Some (m', r) →
           leaf_declared m' ∧ definition m' = definition m)
  ∧ (∀ id, SetState fuel id m = Some (m', r) →
           leaf_declared m' ∧ definition m' = definition m).
Proof.
  intros Hleaf.
  assert (Hkeep : ∀ x y, definition y = definition x → leaf_declared x →
            currentState y = currentState x ∨ is_Some (states (definition x) !! currentState y) →
            leaf_declared y ∧ definition y = definition x).
  { intros x y Hd Hx Hy. split; [|done]. unfold leaf_declared in *. rewrite Hd.
    destruct Hy as [->|?]; [done|by right]. }
  split; [|split].
  - unfold Start.
    destruct (enterState fuel (initial (definition m)) None "" m) as [[m1 r1]|] eqn:Hent;
      [|done].
    pose proof (enterState_frame _ _ _ _ _ _ _ Hent) as (Hd & _).
    apply enterState_leaf in Hent.
    destruct r1; intros [= <- <-]; by apply Hkeep.
  - intros ev. unfold processEvent.
    destruct (findAllTransitions m ev) as [ts|]; [|done].
    destruct (try_transitions_spec fuel (makeContext m (Some ev)) ev ts m)
      as [(pre & t & post & e1 & m1 & _ & _ & _ & Hc & Hd & _ & ->)|(m1 & _ & Hc & Hd & ->)].
    + intros Hexec. apply executeTransition_frame in Hexec as (Hd' & Hl').
      rewrite Hd, Hc in Hl'. apply Hkeep; [congruence|done|done].
    + intros [= <- <-]. apply Hkeep; [done|done|by left].
  - intros id. unfold SetState.
    destruct (negb (defined (definition m) id)).
    { intros [= <- <-]. by apply Hkeep; [|..|left]. }
    case_bool_decide.
    { intros [= <- <-]. by apply Hkeep; [|..|left]. }
    pose proof (exitState_frame (currentState m) m) as (Hd1 & Hc1 & _).
    destruct (exitState (currentState m) m) as [m1 [err|]]; simpl in Hd1, Hc1.
    { intros [= <- <-]. apply Hkeep; [done|done|by left]. }
    destruct (enterState fuel id None (currentState m) m1) as [[m2 r2]|] eqn:Hent; [|done].
    pose proof (enterState_frame _ _ _ _ _ _ _ Hent) as (Hd2 & _).
    apply enterState_leaf in Hent. rewrite Hd1, Hc1 in Hent.
    destruct r2 as [err|].
    + intros [= <- <-]. apply Hkeep; [congruence|done|done].
    + intros [= <- <-].
      destruct (notify_frame (currentState m) (currentState m2) m2) as (Hd3 & Hc3 & _).
      apply Hkeep; [congruence|done|by rewrite Hc3].
Qed.

Lemma foldl_stop_env (l : list string) (m : Machine) :
  env (foldl (fun m name => stop_timer_step name m) m l)
  = foldl (fun e name => StopTimer name e) (env m) l.
Proof. revert m. induction l as [|name l IH]; intros m; simpl; [done|]. by rewrite IH. Qed.

Lemma foldl_StopTimer_lookup (l : list string) (e : Env) (k : string) (en : timerEntry) :
  timers (foldl (fun e name => StopTimer name e) e l) !! k = Some en →
  timers e !! k = Some en ∧ k ∉ l.
Proof.
  revert e. induction l as [|name l IH]; intros e; simpl.
  { intros Hk. split; [done|]. apply not_elem_of_nil. }
  intros Hk. apply IH in Hk as [Hk Hnot]. unfold StopTimer in Hk.
  rewrite cancel_entry_lookup in Hk. destruct (decide (name = k)) as [->|Hne]; [done|].
  split; [done|]. rewrite not_elem_of_cons. by split.
Qed.

Lemma foldl_StopTimer_events (l : list string) (e : Env) :
  events (foldl (fun e name => StopTimer name e) e l) = events e.
Proof.
  revert e. induction l as [|name l IH]; intros e; simpl; [done|]. rewrite IH.
  unfold StopTimer. by destruct (cancel_entry_spec name e) as (_ & _ & _ & -> & _).
Qed.

(** X17.  When a declared state is left, its exit callback (or, without
    one, the machine afterwards) finds none of the state's timers in the
    table: no State-scoped timer owned by the state, none of its declared
    timer names and not its declarative-timeout timer.  The entries that
    remain were there before, and the queue is untouched. *)
Theorem exitState_cancels_timers (id : StateID) (m : Machine) (state : State) :
  states (definition m) !! id = Some state →
  ∃ e0,
    (∀ k en, timers e0 !! k = Some en →
             timers (env m) !! k = Some en ∧ owned_by id en = false
             ∧ k ∉ DeclaredTimers state ∧ k ≠ timeout_timer_name id)
    ∧ events e0 = events (env m)
    ∧ env (exitState id m).1
      = match OnExit state with
        | Some f => (f (makeContext m None) e0).1
        | None => e0
        end.
Proof.
  intros Hst. unfold exitState. rewrite Hst.
  set (m1 := record (with_env m (cleanupTimersForState id (env m))) [StepCleanupTimers id]).
  pose proof (foldl_stop_frame (DeclaredTimers state) m1) as (_ & Hc2 & _).
  pose proof (foldl_stop_env (DeclaredTimers state) m1) as He2.
  set (m2 := foldl (fun m name => stop_timer_step name m) m1 (DeclaredTimers state)) in *.
  set (m3 := stop_timer_step (timeout_timer_name id) m2).
  exists (env m3). split; [|split].
  - intros k en Hk. unfold m3 in Hk. simpl in Hk. unfold StopTimer in Hk.
    rewrite cancel_entry_lookup in Hk.
    destruct (decide (timeout_timer_name id = k)) as [Heq|Hne]; [done|].
    rewrite He2 in Hk. apply foldl_StopTimer_lookup in Hk as [Hk Hnot].
    simpl in Hk. apply cleanup_lookup in Hk as [Hk Ho].
    repeat split; try done; by intros ->.
  - unfold m3. simpl. unfold StopTimer.
    destruct (cancel_entry_spec (timeout_timer_name id) (env m2)) as (_ & _ & _ & -> & _).
    rewrite He2, foldl_StopTimer_events. simpl.
    by destruct (cleanup_events id (env m)) as (-> & _).
  - assert (Hctx : makeContext m3 None = makeContext m None).
    { unfold makeContext. simpl. by rewrite Hc2. }
    rewrite Hctx. unfold run_callback. destruct (OnExit state) as [f|]; [|done].
    by destruct (f (makeContext m None) (env m3)) as [e [err|]].
Qed.

Lemma climb_parent_iter (d : Definition_) (fuel : nat) (current x : StateID)
    (chain : list StateID) :
  climb d fuel "" current = Some chain → x ∈ chain → ∃ k, parent_iter d k current = Some x.
Proof.
  revert current chain. induction fuel as [|fuel IH]; intros current chain; simpl; [done|].
  rewrite orb_diag. case_bool_decide as Hcur.
  { intros [= <-] Hx. by apply elem_of_nil in Hx. }
  destruct (states d !! current) as [state|] eqn:Hst.
  - destruct (climb d fuel "" (Parent state)) as [chain'|] eqn:Hrec; simpl; [|done].
    intros [= <-] Hx. apply elem_of_cons in Hx as [->|Hx]; [by exists 0|].
    destruct (climb_shape _ _ _ _ _ Hrec) as (Hnil & _).
    destruct (decide (Parent state = "")) as [Hp|Hp].
    { rewrite Hnil in Hx by (by left). by apply elem_of_nil in Hx. }
    destruct (IH _ _ Hrec Hx) as [k Hk]. exists (S k). simpl.
    by rewrite (parent_of_Some d current state Hst Hp).
  - intros [= <-] Hx. apply elem_of_cons in Hx as [->|Hx]; [by exists 0|].
    by apply elem_of_nil in Hx.
Qed.

Lemma climb_step (d : Definition_) (fuel : nat) (stop current : StateID) (state : State) :
  current ≠ "" → current ≠ stop → states d !! current = Some state →
  climb d (S fuel) stop current = cons current <$> climb d fuel stop (Parent state).
Proof.
  intros Hne Hns Hst. simpl. rewrite !bool_decide_eq_false_2 by done. by rewrite Hst.
Qed.

(** In a well-formed graph no state is reached again by climbing from
    its parent. *)
Lemma valid_no_return (d : Definition_) (id : StateID) (state : State) (fuel : nat)
    (chain : list StateID) :
  Validate d = None → id ≠ "" → states d !! id = Some state → Parent state ≠ "" →
  climb d fuel "" (Parent state) = Some chain → id ∉ chain.
Proof.
  intros Hv Hne Hst Hp Hclimb Hin.
  destruct (climb_parent_iter _ _ _ _ _ Hclimb Hin) as [k Hk].
  apply (Validate_None_sound d Hv). do 5 right. exists id, k. split; [done|].
  simpl. by rewrite (parent_of_Some d id state Hst Hp).
Qed.

(** X18.  A transition between two distinct states with the same parent,
    on a well-formed graph: the least common ancestor is that parent, the
    only state left is the source, and the engine then runs the transition
    action and enters the target directly.  The parent is neither left nor
    entered again on the way. *)
Theorem sibling_transition_keeps_parent (fuel : nat) (t : Transition) (ev : Event)
    (m : Machine) (source target : State) :
  Validate (definition m) = None →
  currentState m ≠ "" → To t ≠ "" → To t ≠ currentState m →
  states (definition m) !! currentState m = Some source →
  states (definition m) !! To t = Some target →
  Parent source ≠ "" → Parent target = Parent source →
  findLCA (definition m) (currentState m) (To t) = Some (Parent source)
  ∧ ∀ m' r, executeTransition fuel t ev m = Some (m', r) →
      let acted := match Action t with
                   | Some _ => [StepAction (currentState m) (To t)]
                   | None => []
                   end in
      ∃ rest,
        trace m' = trace m ++ exit_steps (currentState m) source ++ rest
        ∧ (rest = []
           ∨ ∃ entered, rest = acted ++ entered
                        ∧ (entered = [] ∨ head entered = Some (StepSetCurrent (To t))))
        ∧ (r = None →
           ∃ entered, rest = acted ++ entered
                      ∧ head entered = Some (StepSetCurrent (To t))).
Proof.
  intros Hv Hfrom Hto Hne Hsrc Htgt Hp Hsame.
  set (d := definition m) in *. set (from := currentState m) in *.
  destruct (climb_valid d "" from Hv) as [chainA HA].
  destruct (climb_valid d "" (To t) Hv) as [chainB HB].
  unfold chain_fuel in HA, HB.
  rewrite (climb_step d _ "" from source) in HA by done.
  rewrite (climb_step d _ "" (To t) target) in HB by done. rewrite Hsame in HB.
  destruct (climb d (size (states d)) "" (Parent source)) as [cp|] eqn:Hcp; [|done].
  simpl in HA, HB. injection HA as <-. injection HB as <-.
  destruct (climb_shape _ _ _ _ _ Hcp) as (_ & Hhead & _).
  destruct (Hhead Hp Hp) as [rest Hrest].
  assert (Hfuel : ∃ n, size (states d) = S n).
  { destruct (size (states d)) as [|n]; [done|by exists n]. }
  destruct Hfuel as [n Hn].
  assert (Hto_cp : To t ∉ cp).
  { apply (valid_no_return d (To t) target (size (states d)) cp Hv Hto Htgt);
      by rewrite Hsame. }
  assert (Hfrom_cp : from ∉ cp)
    by (by apply (valid_no_return d from source (size (states d)) cp Hv)).
  assert (Hfp : from ≠ (Parent source)). { intros Heq. apply Hfrom_cp. rewrite Hrest, Heq. by left. }
  assert (Htp : To t ≠ (Parent source)). { intros Heq. apply Hto_cp. rewrite Hrest, Heq. by left. }
  assert (Hlca : findLCA d from (To t) = Some (Parent source)).
  { unfold findLCA. rewrite bool_decide_eq_false_2 by done.
    unfold chain_fuel. rewrite ancestors_loop_climb.
    rewrite (climb_step d _ "" from source), Hcp by done. cbn [fmap option_fmap option_map].
    rewrite (findLCA_walk_climb d _ _ (To t) (To t :: cp)).
    - f_equal. simpl. rewrite bool_decide_eq_false_2 by set_solver.
      rewrite Hrest. simpl. rewrite bool_decide_eq_true_2; [done|]. set_solver.
    - set_solver.
    - rewrite (climb_step d _ "" (To t) target) by done. rewrite Hsame.
      by rewrite Hcp. }
  split; [done|]. intros m' r. cbv zeta. unfold executeTransition. fold d from. rewrite Hlca.
  unfold exitToAncestor. fold d. unfold chain_fuel. rewrite Hn.
  cbn [exitToAncestor_loop]. fold from.
  rewrite (bool_decide_eq_false_2 (from = "")), (bool_decide_eq_false_2 (from = (Parent source))) by done.
  cbn [orb].
  pose proof (exitState_frame from m) as (Hd1 & Hc1 & Hs1 & Ht1).
  unfold exit_steps_of in Ht1. fold d in Ht1. rewrite Hsrc in Ht1.
  destruct (exitState from m) as [m1 [err|]]; simpl in Hd1, Hc1, Hs1, Ht1.
  { intros [= <- <-]. exists []. rewrite Ht1, app_nil_r. split; [done|]. split; [by left|done]. }
  rewrite Hd1. fold d. rewrite Hsrc.
  rewrite (bool_decide_eq_true_2 ((Parent source) = (Parent source))) by done. rewrite orb_true_r.
  set (c := with_states _ _ _).
  pose proof (run_callback_frame (Action t) c [StepAction from (To t)] m1)
    as (Hd2 & Hc2 & _ & Ht2).
  destruct (run_callback (Action t) c _ m1) as [m2 [err|]]; simpl in Hd2, Hc2, Ht2.
  { intros [= <- <-]. eexists. rewrite Ht2, Ht1, <- app_assoc. split; [done|].
    split; [|done]. right. exists []. rewrite app_nil_r. split; [done|by left]. }
  unfold enterFromAncestor. rewrite bool_decide_eq_false_2 by done.
  assert (Hpath : pathFromAncestor (definition m2) (To t) (Parent source) = Some [To t]).
  { rewrite Hd2, Hd1. fold d. unfold pathFromAncestor, chain_fuel. rewrite Hn.
    cbn [pathFromAncestor_loop].
    rewrite (bool_decide_eq_false_2 (To t = "")),
      (bool_decide_eq_false_2 (To t = (Parent source))) by done.
    cbn [orb]. rewrite Htgt, Hsame.
    by rewrite (bool_decide_eq_true_2 ((Parent source) = (Parent source))), orb_true_r. }
  rewrite Hpath. cbn [enter_path].
  destruct (enterState fuel (To t) (Some ev) from m2) as [[m3 r3]|] eqn:Hent; [|done].
  pose proof (enterState_frame _ _ _ _ _ _ _ Hent) as (_ & _ & steps & Ht3 & Hhead3).
  rewrite Hd2, Hd1 in Hhead3. fold d in Hhead3.
  specialize (Hhead3 ltac:(by eexists)).
  assert (Hpre : trace m3 = trace m ++ exit_steps from source
                            ++ match Action t with
                               | Some _ => [StepAction from (To t)]
                               | None => []
                               end ++ steps).
  { rewrite Ht3, Ht2, Ht1. by rewrite <- !app_assoc. }
  destruct r3 as [err|].
  { intros [= <- <-]. eexists. split; [exact Hpre|]. split; [|done].
    right. exists steps. split; [done|by right]. }
  case_bool_decide.
  - intros [= <- <-].
    pose proof (notify_frame from (currentState m3) m3) as (_ & _ & Ht4).
    set (noted := match stateChangeCallback m3 with
                  | Some _ => [StepNotify from (currentState m3)]
                  | None => []
                  end) in *.
    eexists. rewrite Ht4, Hpre, <- !app_assoc. split; [done|].
    assert (Hh : head (steps ++ noted) = Some (StepSetCurrent (To t))).
    { destruct steps as [|s0 steps]; [done|]. done. }
    split; [right|intros _]; exists (steps ++ noted); (split; [done|]); [by right|done].
  - intros [= <- <-]. eexists. split; [exact Hpre|].
    split; [right|intros _]; exists steps; (split; [done|]); [by right|done].
Qed.

End Model.

(** * The engine on concrete graphs

    Application data and payloads are [unit]. *)

Abbreviation hier_def_u := (@hier_def unit unit) (only parsing).
Abbreviation cond_def_u := (@cond_def unit unit) (only parsing).
Abbreviation junction_def_u := (@junction_def unit unit) (only parsing).
Abbreviation cyclic_def_u := (@cyclic_def unit unit) (only parsing).
Abbreviation child1_state_u := (@child1_state unit unit) (only parsing).
Abbreviation junction_state_u := (@junction_state unit unit) (only parsing).
Abbreviation t_guarded_u := (@t_guarded unit unit) (only parsing).
Abbreviation t_parent_u := (@t_parent unit unit) (only parsing).
Abbreviation t_wildcard_u := (@t_wildcard unit unit) (only parsing).
Abbreviation t_fail_u := (@t_fail unit unit) (only parsing).
Abbreviation failing_callback_u := (@failing_callback unit unit) (only parsing).
Abbreviation polling_machine_u := (@polling_machine unit unit tt) (only parsing).
Abbreviation env_with_timer_u := (@env_with_timer unit unit tt) (only parsing).
Abbreviation ev_next_u := (@ev_next unit) (only parsing).
Abbreviation tick_u := (@tick unit) (only parsing).
Abbreviation machine_u := (@machine_at unit unit tt) (only parsing).
Abbreviation light_def_u := (@light_def unit unit) (only parsing).
Abbreviation ev_other_u := (@ev_other unit) (only parsing).
Abbreviation t_sibling_u := (@t_sibling unit unit) (only parsing).
Abbreviation t_self_u := (@t_self unit unit) (only parsing).
Abbreviation empty_env_u := (@empty_env unit unit tt) (only parsing).

Ltac differ := let H := fresh in intros H; vm_compute in H; discriminate H.

Lemma event_selection_witness :
  Validate (definition (machine_u hier_def_u "child1" None)) = None
  ∧ ∃ chain ts,
      chain = ["child1"; "parent"]
      ∧ ts = [t_guarded_u; t_parent_u; t_wildcard_u]
      ∧ findAllTransitions (machine_u hier_def_u "child1" None) ev_next_u = Some ts.
Proof.
  assert (Hv : Validate (definition (machine_u hier_def_u "child1" None)) = None)
    by (vm_compute; reflexivity).
  split; [exact Hv|].
  destruct (event_selection 5 ev_next_u (machine_u hier_def_u "child1" None) Hv)
    as (chain & ts & Hclimb & Hts & Hfind & _).
  exists chain, ts. vm_compute in Hclimb. injection Hclimb as <-.
  split; [reflexivity|]. split; [|exact Hfind]. rewrite Hts. vm_compute. reflexivity.
Defined.




(** C4, the claim as stated fails: the declared timer names are cancelled
    before the declarative-timeout timer, not after it. *)
Lemma exit_order_differs : ¬ spec_exit_order (machine_u hier_def_u "child1" None) "child1".
Proof.
  intros H. specialize (H child1_state_u eq_refl). vm_compute in H. discriminate H.
Qed.

Lemma exit_order_witness :
  ∃ m', exitToAncestor "child1" "" (machine_u hier_def_u "child1" None) = Some (m', None)
        ∧ trace m' = [StepCleanupTimers "child1"; StepStopTimer "poll";
                      StepStopTimer "_timeout_child1"; StepOnExit "child1";
                      StepCleanupTimers "parent"; StepStopTimer "_timeout_parent";
                      StepOnExit "parent"].
Proof.
  destruct (exitToAncestor "child1" "" (machine_u hier_def_u "child1" None))
    as [[m' [err|]]|] eqn:Hexit; try (vm_compute in Hexit; discriminate Hexit).
  exists m'. split; [reflexivity|].
  destruct (exit_order "child1" "" _ m' None Hexit) as [(exited & _ & Htrace & Hfull) _].
  specialize (Hfull eq_refl). vm_compute in Hfull. injection Hfull as <-.
  rewrite Htrace. vm_compute. reflexivity.
Defined.

Lemma timer_fire_retry_witness :
  clock (env polling_machine_u) !! 0 = Some {| fn := {| cl_name := "_timeout_polling";
                                                      cl_event := {| ID := "poll_complete";
                                                                     Payload_of := None |};
                                                      cl_scope := TimerScopeState;
                                                      cl_owner := "polling" |};
                                             armed := true; stops := 0 |}
  ∧ events (env (Nat.iter 3 (fire_by_name "_timeout_polling") polling_machine_u)) = []
  ∧ TimerActive "_timeout_polling"
      (env (Nat.iter 3 (fire_by_name "_timeout_polling") polling_machine_u)) = true.
Proof.
  split; [vm_compute; reflexivity|].
  assert (Hentry : timers (env polling_machine_u) !! "_timeout_polling"
                   = Some {| timer := 0; event := {| ID := "poll_complete"; Payload_of := None |};
                             scope := TimerScopeState; ownerState := "polling";
                             duration := 400; action := Some "polling" |})
    by (vm_compute; reflexivity).
  destruct (timer_fire_retry 0 polling_machine_u _ _ eq_refl eq_refl Hentry)
    as (_ & _ & _ & _ & Hretry).
  apply (Hretry failing_callback_u eq_refl eq_refl).
  intros c e. by exists (UserError "not yet").
Defined.

Lemma start_replaces_witness :
  timers env_with_timer_u !! "t"
  = Some {| timer := 0; event := tick_u; scope := TimerScopeGlobal; ownerState := "";
            duration := 10; action := None |}
  ∧ size (timers (startTimerInternalWithAction "t" 20 tick_u TimerScopeGlobal "" None
                    env_with_timer_u)) = 1
  ∧ clock (startTimerInternalWithAction "t" 20 tick_u TimerScopeGlobal "" None env_with_timer_u)
      !! 0
    = Some {| fn := {| cl_name := "t"; cl_event := tick_u; cl_scope := TimerScopeGlobal;
                       cl_owner := "" |};
              armed := false; stops := 1 |}.
Proof.
  assert (Hold : timers env_with_timer_u !! "t"
                 = Some {| timer := 0; event := tick_u; scope := TimerScopeGlobal;
                           ownerState := ""; duration := 10; action := None |})
    by (vm_compute; reflexivity).
  split; [exact Hold|].
  destruct (start_replaces "t" 20 tick_u TimerScopeGlobal "" None env_with_timer_u _ Hold)
    as (_ & Hsize & Hstopped & _).
  split; [rewrite Hsize; vm_compute; reflexivity|].
  apply (Hstopped {| fn := {| cl_name := "t"; cl_event := tick_u; cl_scope := TimerScopeGlobal;
                              cl_owner := "" |}; armed := true; stops := 0 |}).
  vm_compute. reflexivity.
Defined.

(** C7, the claim as stated fails: asked for the current leaf itself, a
    declared state, [SetState] leaves nothing and enters nothing. *)
Lemma SetState_current_skips_exit :
  is_Some (states (definition (machine_u hier_def_u "child1" None)) !! "child1")
  ∧ ¬ forced_steps 5 "child1" (machine_u hier_def_u "child1" None).
Proof.
  split; [by eexists|]. intros H.
  destruct (H (machine_u hier_def_u "child1" None) None) as (rest & Htrace & _).
  { vm_compute. reflexivity. }
  vm_compute in Htrace. discriminate Htrace.
Qed.

Lemma SetState_forced_witness :
  is_Some (states hier_def_u !! "off")
  ∧ "off" ≠ currentState (machine_u hier_def_u "child1" (Some (fun _ _ e => e)))
  ∧ forced_steps 5 "off" (machine_u hier_def_u "child1" (Some (fun _ _ e => e)))
  ∧ ∃ m', SetState 5 "off" (machine_u hier_def_u "child1" (Some (fun _ _ e => e)))
          = Some (m', None)
          ∧ trace m' = [StepCleanupTimers "child1"; StepStopTimer "poll";
                        StepStopTimer "_timeout_child1"; StepOnExit "child1";
                        StepSetCurrent "off"; StepNotify "child1" "off"].
Proof.
  assert (Hdef : is_Some (states hier_def_u !! "off")) by (by eexists).
  assert (Hne : "off" ≠ currentState (machine_u hier_def_u "child1" (Some (fun _ _ e => e))))
    by discriminate.
  split; [exact Hdef|]. split; [exact Hne|]. split.
  - exact (proj2 (SetState_forced 5 "off"
                    (machine_u hier_def_u "child1" (Some (fun _ _ e => e)))) Hdef Hne).
  - eexists. split; vm_compute; reflexivity.
Defined.

Lemma SetState_same_state_witness :
  is_Some (states (definition (machine_u hier_def_u "child1" None)) !! "child1")
  ∧ SetState 5 "child1" (machine_u hier_def_u "child1" None)
    = Some (machine_u hier_def_u "child1" None, None).
Proof.
  assert (H : is_Some (states (definition (machine_u hier_def_u "child1" None)) !! "child1"))
    by (by eexists).
  split; [exact H|]. exact (SetState_same_state 5 (machine_u hier_def_u "child1" None) H).
Defined.

Lemma exit_failure_keeps_leaf_witness :
  ∃ m', executeTransition 5 t_fail_u ev_next_u (machine_u hier_def_u "bad" None)
        = Some (m', Some (ErrExitFailed (ErrExitActionFailed "bad" (UserError "not yet"))))
        ∧ currentState m' = "bad".
Proof.
  destruct (executeTransition 5 t_fail_u ev_next_u (machine_u hier_def_u "bad" None))
    as [[m' err]|] eqn:Hexec; [|vm_compute in Hexec; discriminate Hexec].
  assert (err = Some (ErrExitFailed (ErrExitActionFailed "bad" (UserError "not yet")))) as ->.
  { vm_compute in Hexec. injection Hexec as _ <-. reflexivity. }
  exists m'. split; [reflexivity|].
  destruct (exit_failure_keeps_leaf 5 t_fail_u ev_next_u _ m' _ Hexec) as (Hleaf & _).
  exact Hleaf.
Defined.

(** A definition whose states are each other's parent is refused. *)
Example Build_refuses_cycle :
  ∃ e, (Build tt cyclic_def_u []).2 = inl e.
Proof. eexists. vm_compute. reflexivity. Qed.

Example Build_accepts_hierarchy :
  ∃ m, (Build tt hier_def_u []).2 = inr m.
Proof. eexists. vm_compute. reflexivity. Qed.

(** ** Witnesses of the further properties *)

Lemma StopAllTimers_silences_witness :
  timers_wf (env polling_machine_u)
  ∧ TimerActive "_timeout_polling" (env polling_machine_u) = true
  ∧ timers (env (Stop polling_machine_u)) = ∅
  ∧ timer_fire 0 (Stop polling_machine_u) = Stop polling_machine_u.
Proof.
  assert (Hwf : timers_wf (env polling_machine_u)).
  { exact (timers_wf_start _ _ _ _ _ _ _ (timers_wf_empty tt)). }
  split; [exact Hwf|]. split; [vm_compute; reflexivity|].
  destruct (StopAllTimers_silences polling_machine_u Hwf) as (Hempty & _ & _ & Hfire).
  split; [exact Hempty|exact (Hfire 0)].
Defined.

Lemma timers_wf_preserved_witness :
  timers_wf env_with_timer_u
  ∧ timers_wf (resetTimer "t" 30 env_with_timer_u)
  ∧ timers_wf (cleanupTimersForState "a" env_with_timer_u).
Proof.
  assert (Hwf : timers_wf env_with_timer_u).
  { exact (timers_wf_start _ _ _ _ _ _ _ (timers_wf_empty tt)). }
  split; [exact Hwf|].
  destruct (timers_wf_preserved env_with_timer_u Hwf) as (_ & _ & Hreset & Hclean & _).
  split; [exact (Hreset "t" 30%Z)|exact (Hclean "a")].
Defined.

Lemma findLCA_first_common_witness :
  Validate hier_def_u = None
  ∧ findLCA hier_def_u "child1" "child2" = Some "parent"
  ∧ findLCA hier_def_u "child1" "off" = Some "".
Proof.
  assert (Hv : Validate hier_def_u = None) by (vm_compute; reflexivity).
  split; [exact Hv|]. split.
  - destruct (findLCA_first_common hier_def_u "child1" "child2" Hv)
      as (chainA & chainB & lca & HA & HB & Hlca & Hfirst & _).
    vm_compute in HA. injection HA as <-. vm_compute in HB. injection HB as <-.
    rewrite Hlca, Hfirst. vm_compute. reflexivity.
  - destruct (findLCA_first_common hier_def_u "child1" "off" Hv)
      as (chainA & chainB & lca & HA & HB & Hlca & Hfirst & _).
    vm_compute in HA. injection HA as <-. vm_compute in HB. injection HB as <-.
    rewrite Hlca, Hfirst. vm_compute. reflexivity.
Defined.

Lemma IsInState_chain_witness :
  Validate (definition (machine_u hier_def_u "child1" None)) = None
  ∧ IsInState (machine_u hier_def_u "child1" None) "parent" = Some true
  ∧ IsInState (machine_u hier_def_u "child1" None) "child2" = Some false.
Proof.
  assert (Hv : Validate (definition (machine_u hier_def_u "child1" None)) = None)
    by (vm_compute; reflexivity).
  split; [exact Hv|]. split.
  - destruct (IsInState_chain (machine_u hier_def_u "child1" None) "parent" Hv)
      as (chain & Hclimb & Hin & _).
    vm_compute in Hclimb. injection Hclimb as <-. rewrite Hin. vm_compute. reflexivity.
  - destruct (IsInState_chain (machine_u hier_def_u "child1" None) "child2" Hv)
      as (chain & Hclimb & Hin & _).
    vm_compute in Hclimb. injection Hclimb as <-. rewrite Hin. vm_compute. reflexivity.
Defined.

Lemma computeDepth_counts_ancestors_witness :
  ∃ m, (Build tt hier_def_u []).2 = inr m
       ∧ depth m !! "child1" = Some 1 ∧ depth m !! "parent" = Some 0.
Proof.
  destruct (Build tt hier_def_u []).2 as [e|m] eqn:Hbuild;
    [vm_compute in Hbuild; discriminate Hbuild|].
  exists m. split; [reflexivity|]. split.
  - destruct (computeDepth_counts_ancestors tt hier_def_u [] m "child1" Hbuild)
      as (chain & Hclimb & _ & _ & Hdepth); [by eexists|].
    vm_compute in Hclimb. injection Hclimb as <-. exact Hdepth.
  - destruct (computeDepth_counts_ancestors tt hier_def_u [] m "parent" Hbuild)
      as (chain & Hclimb & _ & _ & Hdepth); [by eexists|].
    vm_compute in Hclimb. injection Hclimb as <-. exact Hdepth.
Defined.

Lemma Build_transitions_witness :
  ∃ m, (Build tt light_def_u []).2 = inr m
       ∧ currentState m = ""
       ∧ transitions (definition m)
         = [{| From := "off"; Event_ := "toggle"; To := "on";
               Guard := None; Action := None |};
            {| From := "on"; Event_ := "__timeout_on_to_off"; To := "off";
               Guard := None; Action := None |}].
Proof.
  destruct (Build tt light_def_u []).2 as [e|m] eqn:Hbuild;
    [vm_compute in Hbuild; discriminate Hbuild|].
  exists m. split; [reflexivity|].
  destruct (Build_transitions tt light_def_u [] m Hbuild)
    as (Hcur & _ & _ & _ & added & Hts & Hadded & _).
  split; [exact Hcur|]. rewrite Hts, Hadded. vm_compute. reflexivity.
Defined.

Lemma processEvent_ignores_unhandled_witness :
  Validate (definition (machine_u hier_def_u "off" None)) = None
  ∧ processEvent 5 ev_other_u (machine_u hier_def_u "off" None)
    = Some (machine_u hier_def_u "off" None, None).
Proof.
  assert (Hv : Validate (definition (machine_u hier_def_u "off" None)) = None)
    by (vm_compute; reflexivity).
  split; [exact Hv|].
  apply (processEvent_ignores_unhandled 5 ev_other_u (machine_u hier_def_u "off" None) Hv).
  intros t Ht Hev. exfalso.
  repeat (apply elem_of_cons in Ht as [->|Ht]; [vm_compute in Hev; discriminate Hev|]).
  by apply elem_of_nil in Ht.
Defined.

Lemma self_transition_reenters_witness :
  To t_self_u = currentState (machine_u hier_def_u "off" None)
  ∧ ∃ m' rest,
      executeTransition 5 t_self_u ev_next_u (machine_u hier_def_u "off" None)
      = Some (m', None)
      ∧ trace m' = rest ∧ head rest = Some (StepSetCurrent "off").
Proof.
  split; [reflexivity|].
  destruct (executeTransition 5 t_self_u ev_next_u (machine_u hier_def_u "off" None))
    as [[m' [err|]]|] eqn:Hexec; try (vm_compute in Hexec; discriminate Hexec).
  destruct (self_transition_reenters 5 t_self_u ev_next_u
              (machine_u hier_def_u "off" None) m' None eq_refl Hexec)
    as (rest & Htrace & _ & Hhead).
  exists m', rest. split; [reflexivity|]. split; [exact Htrace|exact (Hhead eq_refl)].
Defined.

Lemma engine_keeps_leaf_declared_witness :
  leaf_declared (machine_u hier_def_u "child1" None)
  ∧ ∃ m', processEvent 5 ev_next_u (machine_u hier_def_u "child1" None) = Some (m', None)
          ∧ leaf_declared m' ∧ definition m' = hier_def_u.
Proof.
  assert (Hleaf : leaf_declared (machine_u hier_def_u "child1" None)).
  { right. by eexists. }
  split; [exact Hleaf|].
  destruct (processEvent 5 ev_next_u (machine_u hier_def_u "child1" None))
    as [[m' [err|]]|] eqn:Hproc; try (vm_compute in Hproc; discriminate Hproc).
  exists m'. split; [reflexivity|].
  destruct (engine_keeps_leaf_declared 5 (machine_u hier_def_u "child1" None) m' None Hleaf)
    as (_ & Hevent & _).
  exact (Hevent ev_next_u Hproc).
Defined.

Lemma exitState_cancels_timers_witness :
  states hier_def_u !! "child1" = Some child1_state_u
  ∧ TimerActive "poll"
      (env (with_env (machine_u hier_def_u "child1" None)
              (StartTimer "poll" 10 tick_u empty_env_u))) = true
  ∧ TimerActive "poll"
      (env (exitState "child1"
              (with_env (machine_u hier_def_u "child1" None)
                 (StartTimer "poll" 10 tick_u empty_env_u))).1) = false.
Proof.
  assert (Hst : states hier_def_u !! "child1" = Some child1_state_u)
    by (vm_compute; reflexivity).
  split; [exact Hst|]. split; [vm_compute; reflexivity|].
  destruct (exitState_cancels_timers "child1"
              (with_env (machine_u hier_def_u "child1" None)
                 (StartTimer "poll" 10 tick_u empty_env_u))
              child1_state_u Hst) as (e0 & Hnone & _ & Henv).
  unfold TimerActive. rewrite Henv. simpl.
  apply bool_decide_eq_false_2. intros [en Hen].
  destruct (Hnone "poll" en Hen) as (_ & _ & Hdeclared & _).
  apply Hdeclared. by left.
Defined.

Lemma sibling_transition_keeps_parent_witness :
  Validate hier_def_u = None
  ∧ findLCA hier_def_u "child1" "child2" = Some "parent"
  ∧ ∃ m' rest,
      executeTransition 5 t_sibling_u ev_next_u (machine_u hier_def_u "child1" None)
      = Some (m', None)
      ∧ trace m' = exit_steps "child1" child1_state_u ++ rest.
Proof.
  assert (Hv : Validate hier_def_u = None) by (vm_compute; reflexivity).
  split; [exact Hv|].
  destruct (sibling_transition_keeps_parent 5 t_sibling_u ev_next_u
              (machine_u hier_def_u "child1" None) child1_state_u
              (make_state "child2" "parent" StateNormal "" [] None None))
    as [Hlca Hexec]; try differ; try (vm_compute; reflexivity).
  split; [exact Hlca|].
  destruct (executeTransition 5 t_sibling_u ev_next_u (machine_u hier_def_u "child1" None))
    as [[m' [err|]]|] eqn:Hrun; try (vm_compute in Hrun; discriminate Hrun).
  destruct (Hexec m' None eq_refl) as (rest & Htrace & _).
  exists m', rest. split; [reflexivity|exact Htrace].
Defined.
